(** * Harvestflow: the topic clusterer ([src/cluster/topics.ts])

    A shallow embedding of [cluster] and of the pieces it is built from,
    followed by the properties the specification states about it.  The
    development also covers the lines of [main] in [src/index.ts] that
    pick the messages of a flow, and the readiness audit of
    [scripts/production_readiness_audit.ts].

    Conventions of the embedding.
    - A JavaScript string is a [string]; one character stands for one
      UTF-16 code unit, which is all [split], [slice] and truthiness
      look at.
    - An optional field ([id], [text], [content]) is an [option]; [None]
      is [undefined].  A topic's [ids] can hold [undefined] (the seed
      keeps [m.id] as it is), so an id in a topic is an [option string].
    - [await] only sequences the calls; the store and the number of
      UUIDs drawn so far are threaded explicitly.
    - The embedder ([src/semantic/localEmbed]) and the vector store
      ([src/semantic/memStore]) are collaborators of [cluster]: it is
      written against their interface, and a store that follows the
      specification is given separately. *)

From Stdlib Require Import Ascii.
From stdpp Require Import base list strings gmap sorting pretty.

#[local] Set Warnings "-clear-no-such-hyp".

(** ** Data model *)

(** An id as it appears in a topic: [None] is JavaScript's [undefined]. *)
Definition Id := option string.

(** [Message] of [src/schema/types]: the fields [cluster] reads. *)
Record Message := mkMessage {
  msg_id : option string;
  msg_role : string;
  msg_text : option string;
  msg_content : option string
}.

(** [{ id: m.id, title: ... }] *)
Record Seed := mkSeed {
  seed_id : Id;
  seed_title : string
}.

(** [{ title: string; ids: string[] }] *)
Record Topic := mkTopic {
  title : string;
  ids : list Id
}.

(** The metadata object [{ role, text }] handed to [MemStore.upsert]. *)
Record Meta := mkMeta {
  meta_role : string;
  meta_text : string
}.

(** One result of [MemStore.query]; [cluster] reads only [hit.id]. *)
Record Hit (Score : Type) := mkHit {
  hit_id : string;
  hit_score : Score
}.
Arguments mkHit {Score} _ _.
Arguments hit_id {Score} _.
Arguments hit_score {Score} _.

(** ** String helpers *)

(** [msg.text ?? msg.content ?? ""] *)
Definition text_of (m : Message) : string :=
  match msg_text m with
  | Some t => t
  | None =>
      match msg_content m with
      | Some c => c
      | None => EmptyString
      end
  end.

(** [s.split("\n")[0]]: the characters before the first line feed.  The
    array [split] returns is never empty, so the [?.] that follows it in
    the source never short-circuits. *)
Fixpoint first_line (s : string) : string :=
  match s with
  | EmptyString => EmptyString
  | String c rest =>
      if Ascii.eqb c "010"%char then EmptyString
      else String c (first_line rest)
  end.

(** [s.slice(0, n)] *)
Definition slice_to (n : nat) (s : string) : string := String.substring 0 n s.

(** [(m.text ?? m.content ?? "").split("\n")[0]?.slice(0, 80) || ""] *)
Definition title_of (m : Message) : string :=
  slice_to 80 (first_line (text_of m)).

(** Truthiness of a string: every string but the empty one. *)
Definition truthy (s : string) : Prop := s ≠ EmptyString.

#[global] Instance truthy_dec s : Decision (truthy s).
Proof. unfold truthy. apply _. Defined.

(** Truthiness of [msg.id]: present and not empty. *)
Definition usable_id (i : option string) : option string :=
  match i with
  | Some s => if decide (truthy s) then Some s else None
  | None => None
  end.

(** A message for which line 10 calls [randomUUID()]. *)
Definition needs_uuid (m : Message) : Prop := usable_id (msg_id m) = None.

#[global] Instance needs_uuid_dec m : Decision (needs_uuid m).
Proof. unfold needs_uuid. apply _. Defined.

(** A message that carries an id of its own: present and not empty. *)
Definition has_id (m : Message) : Prop :=
  ∃ k, msg_id m = Some k ∧ truthy k.

(** ** Seed extraction (lines 16-20) *)

(** [messages.filter(m => m.role !== "tool")] *)
Definition relevant (messages : list Message) : list Message :=
  filter (λ m, msg_role m ≠ "tool") messages.

Definition seed_of (m : Message) : Seed :=
  {| seed_id := msg_id m; seed_title := title_of m |}.

(** [messages.filter(user).map(seed_of).filter(seed => seed.title).slice(0, 12)] *)
Definition seeds (messages : list Message) : list Seed :=
  take 12
    (filter (λ s, truthy (seed_title s))
       (fmap seed_of
          (filter (λ m, msg_role m = "user") messages))).

(** *** The specification's reading of seed extraction

    Written after the specification's words, to be compared with [seeds];
    nothing here uses [text_of], [first_line], [slice_to] or [title_of]. *)

(** The text of a message: its [text] when the field is there, else its
    [content], else no character. *)
Definition spec_text (m : Message) : list ascii :=
  match msg_text m, msg_content m with
  | Some t, _ => String.list_ascii_of_string t
  | None, Some c => String.list_ascii_of_string c
  | None, None => []
  end.

(** "first line": the characters that come before the first line feed. *)
Fixpoint spec_first_line (cs : list ascii) : list ascii :=
  match cs with
  | [] => []
  | c :: rest =>
      if decide (c = "010"%char) then [] else c :: spec_first_line rest
  end.

(** "title = first line of normalized text, truncated to 80 characters" *)
Definition spec_title (m : Message) : string :=
  String.string_of_list_ascii (take 80 (spec_first_line (spec_text m))).

(** Walk the messages once in their order, keep those of role [user],
    give each its title, and drop the ones whose title is empty. *)
Fixpoint qualifying (messages : list Message) : list Seed :=
  match messages with
  | [] => []
  | m :: rest =>
      if decide (msg_role m = "user") then
        if decide (spec_title m = EmptyString) then qualifying rest
        else mkSeed (msg_id m) (spec_title m) :: qualifying rest
      else qualifying rest
  end.

(** The same walk with the cap built in: [cap] counts the seeds still
    allowed, and only a seed that is kept uses one up. *)
Fixpoint extractSeeds (cap : nat) (messages : list Message) : list Seed :=
  match messages with
  | [] => []
  | m :: rest =>
      match cap with
      | 0 => []
      | S cap' =>
          if decide (msg_role m = "user") then
            if decide (spec_title m = EmptyString) then extractSeeds cap rest
            else mkSeed (msg_id m) (spec_title m) :: extractSeeds cap' rest
          else extractSeeds cap rest
      end
  end.

(** ** The collaborators of [cluster]

    [embed] ([src/semantic/localEmbed]) and [MemStore]
    ([src/semantic/memStore]) are reached through their interface: a
    pure embedder, and a store with [upsert] and [query].  [MemStore] is
    a process-wide object in the source; here its contents are a value
    of type [Store] that [upsert] transforms. *)

Class Embedder (Vec : Type) := embed : string → Vec.

Class VectorIndex (Vec Score Store : Type) := {
  upsert : string → Vec → Meta → Store → Store;
  query : Vec → nat → Store → list (Hit Score)
}.

(** What the specification promises of a store, in terms of the ids it
    holds: [upsert] adds at most the id it is given, [query] returns
    only ids that are stored, and at most as many as it is asked for. *)
Class VectorIndexLaws {Vec Score Store : Type}
    (index : VectorIndex Vec Score Store) (stored : Store → list string) := {
  upsert_stored i v m st k :
    k ∈ stored (upsert i v m st) → k = i ∨ k ∈ stored st;
  query_stored q n st hit :
    hit ∈ query q n st → hit_id hit ∈ stored st;
  query_length q n st :
    length (query q n st) ≤ n
}.

(** What a run of [cluster] reads and changes outside its arguments: the
    contents of the store and the number of UUIDs drawn so far. *)
Record World (Store : Type) := mkWorld {
  store : Store;
  drawn : nat
}.
Arguments mkWorld {Store} _ _.
Arguments store {Store} _.
Arguments drawn {Store} _.

(** ** JavaScript's [Set], as far as [cluster] uses it

    A [Set] iterates in insertion order, and [Array.from(new Set(xs))]
    depends on that order, so the set built on line 25 is the list of
    its elements in insertion order.  The set [assigned] of line 29 is
    only asked for membership, and is a [gset]. *)

(** [s.add(x)] *)
Definition Set_add (s : list Id) (x : Id) : list Id :=
  if decide (x ∈ s) then s else s ++ [x].

(** [Array.from(new Set(xs))] *)
Definition Set_from (xs : list Id) : list Id := foldl Set_add [] xs.

(** ** The claiming pass (lines 29-37) *)

(** [ids.filter(id => { if (assigned.has(id)) return false;
    assigned.add(id); return true; })], with the set [assigned] threaded
    through: the ids kept, and [assigned] afterwards. *)
Fixpoint claim (assigned : gset Id) (l : list Id) : list Id * gset Id :=
  match l with
  | [] => ([], assigned)
  | i :: rest =>
      if decide (i ∈ assigned) then claim assigned rest
      else
        let '(kept, assigned') := claim ({[i]} ∪ assigned) rest in
        (i :: kept, assigned')
  end.

(** The callback of [topics.map] on line 30: the topic it returns, and
    [assigned] afterwards. *)
Definition claim_topic (assigned : gset Id) (t : Topic) : Topic * gset Id :=
  let '(kept, assigned') := claim assigned (ids t) in
  (mkTopic (title t) kept, assigned').

(** [topics.map(topic => ({ title: topic.title, ids: topic.ids.filter(...) }))],
    the callback sharing the one set [assigned]. *)
Fixpoint assign (assigned : gset Id) (ts : list Topic) : list Topic :=
  match ts with
  | [] => []
  | t :: rest =>
      let '(t', assigned') := claim_topic assigned t in
      t' :: assign assigned' rest
  end.

(** The set [assigned] at the moment the callback is entered for the
    topic of index [i]. *)
Definition assigned_at (ts : list Topic) (i : nat) : gset Id :=
  foldl (λ a t, (claim_topic a t).2) ∅ (take i ts).

(** No id occurs in two topics of a sequence. *)
Definition pairwise_disjoint (ts : list Topic) : Prop :=
  ∀ i j ti tj x,
    i ≠ j → ts !! i = Some ti → ts !! j = Some tj → x ∈ ids ti → x ∉ ids tj.

(** The number of ids in a sequence of topics. *)
Definition total_ids (ts : list Topic) : nat :=
  sum_list (fmap (λ t, length (ids t)) ts).

(** ** [cluster] *)

Section Cluster.
Context {Vec Score Store : Type}.
Context {embedder : Embedder Vec} {index : VectorIndex Vec Score Store}.

(** The source of [randomUUID()]: [uuid n] is the value of the call
    number [n] of the process. *)
Variable uuid : nat → string.

Definition randomUUID (w : World Store) : string * World Store :=
  (uuid (drawn w), mkWorld (store w) (S (drawn w))).

(** The body of the loop of lines 8-14. *)
Definition ingest_msg (w : World Store) (msg : Message) : World Store :=
  let text := text_of msg in
  let '(key, w1) :=
    match usable_id (msg_id msg) with
    | Some k => (k, w)
    | None => randomUUID w
    end in
  mkWorld (upsert key (embed text) (mkMeta (msg_role msg) text) (store w1))
          (drawn w1).

(** Lines 7-14. *)
Definition ingest (w : World Store) (messages : list Message) : World Store :=
  foldl ingest_msg w (relevant messages).

(** Lines 24-25: the ids of one topic before the claiming pass. *)
Definition candidates (st : Store) (seed : Seed) : list Id :=
  let hits := query (embed (seed_title seed)) 50 st in
  Set_from (seed_id seed :: fmap (λ hit, Some (hit_id hit)) hits).

(** Lines 22-27: the array [topics]. *)
Definition topics (st : Store) (messages : list Message) : list Topic :=
  fmap (λ seed, mkTopic (seed_title seed) (candidates st seed)) (seeds messages).

(** The whole function: the topics returned and the world it leaves. *)
Definition cluster_run (w : World Store) (messages : list Message)
  : list Topic * World Store :=
  let w' := ingest w messages in
  (assign ∅ (topics (store w') messages), w').

Definition cluster (w : World Store) (messages : list Message) : list Topic :=
  (cluster_run w messages).1.
End Cluster.

(** ** [buildFlows] *)

(** Modelled from the spec: the placeholder metrics of a new flow,
    "to be populated later"; [src/flows/build] is missing from the
    sources. *)
Inductive Metrics := PlaceholderMetrics.

Record FlowNode := mkNode {
  msgIds : list Id
}.

(** Modelled from the spec: the [Flow] record, as [src/index.ts] reads
    it ([flow.id], [flow.title], [flow.nodes[0].msgIds],
    [flow.deliverables], [flow.metrics]); a deliverable is kept as its
    text. *)
Record Flow := mkFlow {
  flow_id : string;
  flow_title : string;
  nodes : list FlowNode;
  deliverables : list string;
  metrics : Metrics
}.

(** Modelled from the spec: [buildFlows], missing from the sources:
    "one Flow per Topic, preserving order.  Each Flow gets a freshly
    generated unique identifier, the topic's title, a single node
    carrying the topic's id list, an empty deliverables sequence, and
    placeholder metrics".  [n] is the number of identifiers generated
    before the call. *)
Fixpoint buildFlows (uuid : nat → string) (n : nat) (ts : list Topic) : list Flow :=
  match ts with
  | [] => []
  | t :: rest =>
      mkFlow (uuid n) (title t) [mkNode (ids t)] [] PlaceholderMetrics
      :: buildFlows uuid (S n) rest
  end.

(** ** The caller: [main] of [src/index.ts], lines 19-22 *)

(** [{ role: msg.role, text: msg.text ?? msg.content ?? "" }] *)
Record ChatLine := mkLine {
  line_role : string;
  line_text : string
}.

(** [flow.nodes[0]?.msgIds ?? []] *)
Definition first_msgIds (flow : Flow) : list Id :=
  match nodes flow with
  | node :: _ => msgIds node
  | [] => []
  end.

(** [msg.id && msgIds.includes(msg.id)] *)
Definition picked (l : list Id) (msg : Message) : Prop :=
  match usable_id (msg_id msg) with
  | Some k => Some k ∈ l
  | None => False
  end.

#[global] Instance picked_dec l msg : Decision (picked l msg).
Proof. unfold picked. destruct (usable_id (msg_id msg)); apply _. Defined.

(** [chat.messages.filter(msg => msg.id && msgIds.includes(msg.id))] *)
Definition pick_messages (l : list Id) (messages : list Message) : list Message :=
  filter (picked l) messages.

(** The array [msgs] handed to the builders of one flow. *)
Definition flow_msgs (flow : Flow) (messages : list Message) : list ChatLine :=
  (λ msg, mkLine (msg_role msg) (text_of msg))
    <$> pick_messages (first_msgIds flow) messages.

(** ** A store after the specification *)

Module MemStore.
Section Store.
Context {Vec Score : Type}.
(** The similarity of a stored vector to the query, and the order on
    scores ([leb a b]: [a] is at most [b]). *)
Variable score : Vec → Vec → Score.
Variable leb : Score → Score → bool.

Record VectorRecord := mkRecord {
  rec_id : string;
  rec_vec : Vec;
  rec_meta : Meta
}.

(** Modelled from the spec: the contents of the store, missing from
    the sources; the records in the order of their first insertion,
    one per id. *)
Definition t := list VectorRecord.

Definition empty : t := [].

Definition keys (s : t) : list string := fmap rec_id s.

(** Modelled from the spec: [MemStore.upsert], missing from the
    sources: "Overwrites any existing record for [id]"; a new id goes
    to the end, an overwritten record keeps its place. *)
Fixpoint upsert (i : string) (v : Vec) (m : Meta) (s : t) : t :=
  match s with
  | [] => [mkRecord i v m]
  | r :: rest =>
      if decide (rec_id r = i) then mkRecord i v m :: rest
      else r :: upsert i v m rest
  end.

(** Insertion of one hit into hits sorted by descending score; the
    new hit, which was stored earlier than those in [hs], goes before
    the first one that does not beat it. *)
Fixpoint rank_insert (h : Hit Score) (hs : list (Hit Score)) : list (Hit Score) :=
  match hs with
  | [] => [h]
  | h' :: rest =>
      if leb (hit_score h') (hit_score h) then h :: h' :: rest
      else h' :: rank_insert h rest
  end.

Definition rank (hs : list (Hit Score)) : list (Hit Score) :=
  foldr rank_insert [] hs.

(** [beats a b]: hit [a] may stand before hit [b] in a result. *)
Definition beats (a b : Hit Score) : Prop :=
  leb (hit_score b) (hit_score a) = true.

(** Modelled from the spec: [MemStore.query], missing from the
    sources: "ordered sequence of {id, score}, length ≤ k, ≤ number
    of stored records ... sorted by descending score; ties are broken
    by ascending insertion order". *)
Definition query (q : Vec) (k : nat) (s : t) : list (Hit Score) :=
  take k (rank (fmap (λ r, mkHit (rec_id r) (score q (rec_vec r))) s)).

#[export] Instance index : VectorIndex Vec Score t :=
  Build_VectorIndex Vec Score t upsert query.
End Store.
End MemStore.

(** ** A sample embedder and sample runs *)

Module Sample.
(** One more in bucket [b] of a vector of counts. *)
Fixpoint bump (b : nat) (v : list nat) : list nat :=
  match v with
  | [] => []
  | n :: rest =>
      match b with
      | 0 => S n :: rest
      | S b' => n :: bump b' rest
      end
  end.

(** Modelled from the spec: [embed], missing from the sources: "any
    deterministic vectorization (hashed bag-of-tokens, ...)"; here the
    characters of the text counted in eight buckets by their code. *)
Fixpoint bag (s : string) : list nat :=
  match s with
  | EmptyString => replicate 8 0
  | String c rest => bump (Ascii.nat_of_ascii c `mod` 8) (bag rest)
  end.

#[export] Instance embedder : Embedder (list nat) := bag.

(** Modelled from the spec: the "symmetric similarity metric" of the
    store, missing from the sources; here the inner product of two
    bags. *)
Fixpoint dot (a b : list nat) : nat :=
  match a, b with
  | x :: a', y :: b' => x * y + dot a' b'
  | _, _ => 0
  end.

#[export] Instance index : VectorIndex (list nat) nat (list (MemStore.VectorRecord (Vec := list nat))) :=
  MemStore.index dot Nat.leb.

(** A process that has stored nothing and drawn no UUID. *)
Definition fresh : World (list (MemStore.VectorRecord (Vec := list nat))) :=
  mkWorld MemStore.empty 0.

(** Two sources of UUIDs. *)
Definition uuidA (n : nat) : string := String (Ascii.ascii_of_nat (65 + n)) "-uuid".
Definition uuidB (n : nat) : string := String (Ascii.ascii_of_nat (97 + n)) "-uuid".

Definition user (i : option string) (t : string) : Message :=
  mkMessage i "user" (Some t) None.

(** The scenario of the specification. *)
Definition login_chat : list Message :=
  [ mkMessage (Some "1") "user" (Some "Fix login bug") None;
    mkMessage (Some "2") "assistant" (Some "Here's a fix") None;
    mkMessage (Some "3") "user" (Some "Fix login bug again") None ].

(** One user message without an id. *)
Definition anonymous_chat : list Message := [ user None "hi" ].

(** Two user messages without an id. *)
Definition two_anonymous : list Message := [ user None "a"; user None "b" ].

(** A user message with an id followed by one without. *)
Definition mixed_chat : list Message := [ user (Some "1") "a"; user None "b" ].

(** Two user messages under one id. *)
Definition same_id_chat : list Message :=
  [ user (Some "1") "a"; user (Some "1") "b" ].

(** One user message whose id is the empty string. *)
Definition empty_id_chat : list Message := [ user (Some EmptyString) "hi" ].

(** Fourteen user messages with a title, and among them a tool
    message, an assistant's answer and a user message that starts with
    an empty line. *)
Definition long_chat : list Message :=
  mkMessage (Some "t") "tool" (Some "ls -la") None
  :: user (Some "blank") (String "010"%char "second line")
  :: ((λ n, user (Some (String (Ascii.ascii_of_nat (97 + n)) "0")) "How do I ship this?")
        <$> seq 0 7)
  ++ mkMessage (Some "r") "assistant" None (Some "Like this.")
  :: ((λ n, user (Some (String (Ascii.ascii_of_nat (97 + n)) "1")) "And after that?")
        <$> seq 0 7).
End Sample.

(** ** The readiness audit ([scripts/production_readiness_audit.ts]) *)

Module Audit.

(** [AuditInputs] *)
Record AuditInputs := mkInputs {
  repoPath : string;
  deploymentUrl : option string;
  intendedAudience : string;
  handlesPII : bool;
  handlesPayments : bool;
  handlesSecrets : bool
}.

(** [CategoryScore] *)
Record CategoryScore := mkCategory {
  score : nat;
  maxScore : nat;
  findings : list string;
  reasoning : string
}.

(** The field [categories] of [AuditResults]. *)
Record Categories := mkCategories {
  identityAccessControl : CategoryScore;
  secretsConfig : CategoryScore;
  dataSafety : CategoryScore;
  reliability : CategoryScore;
  observability : CategoryScore;
  cicd : CategoryScore;
  security : CategoryScore;
  testing : CategoryScore;
  performance : CategoryScore;
  documentation : CategoryScore
}.

(** The field [runtimeCheck] of [AuditResults]. *)
Record RuntimeCheck := mkRuntimeCheck {
  httpStatus : option nat;
  responseTime : option nat;
  runtimeFindings : list string
}.

(** The field [executiveSummary] of [AuditResults]. *)
Record ExecutiveSummary := mkSummary {
  safeForEmployees : bool;
  safeForCustomers : bool;
  wouldBreakFirst : list string;
  securityConcerns : list string
}.

(** [AuditResults] *)
Record AuditResults := mkResults {
  categories : Categories;
  runtimeCheck : option RuntimeCheck;
  totalScore : nat;
  resultsMaxScore : nat;
  readinessLevel : string;
  criticalBlockers : list string;
  publicLaunchBlockers : list string;
  topImprovements : list string;
  executiveSummary : ExecutiveSummary
}.

(** What the auditor learns of the repository.  The private methods
    [fileExists], [fileContains], [searchCodebase], [searchInFiles],
    [searchInDirectory], [searchForFiles], [searchForHardcodedSecrets]
    and [searchForCommittedSecrets] read the file system and run [grep],
    [find] and [git]; here their answers are given. *)
Record Repo := mkRepo {
  fileExists : string → bool;
  fileContains : string → string → bool;
  searchCodebase : list string → bool;
  searchInFiles : list string → bool;
  searchInDirectory : string → list string → bool;
  searchForFiles : list string → bool;
  searchForHardcodedSecrets : bool;
  searchForCommittedSecrets : bool
}.

(** [Object.entries(results.categories)], in the order of the keys. *)
Definition entries (c : Categories) : list (string * CategoryScore) :=
  [ ("identityAccessControl", identityAccessControl c);
    ("secretsConfig", secretsConfig c);
    ("dataSafety", dataSafety c);
    ("reliability", reliability c);
    ("observability", observability c);
    ("cicd", cicd c);
    ("security", security c);
    ("testing", testing c);
    ("performance", performance c);
    ("documentation", documentation c) ].

(** [Object.values(results.categories)] *)
Definition values (c : Categories) : list CategoryScore := snd <$> entries c.

(** [hay.includes(needle)] *)
Fixpoint includes (needle hay : string) : bool :=
  String.prefix needle hay
  || match hay with
     | EmptyString => false
     | String _ rest => includes needle rest
     end.

(** The local variables [score] and [findings] of a category audit. *)
Record Tally := mkTally {
  tally_score : nat;
  tally_findings : list string
}.

(** [findings.push(f)] *)
Definition push (f : string) (t : Tally) : Tally :=
  mkTally (tally_score t) (tally_findings t ++ [f]).

(** [score += n] *)
Definition add (n : nat) (t : Tally) : Tally :=
  mkTally (tally_score t + n) (tally_findings t).

(** [return { score, maxScore: 5, findings, reasoning }] *)
Definition close (t : Tally) (r : string) : CategoryScore :=
  mkCategory (tally_score t) 5 (tally_findings t) r.

Section Auditor.
Variable repo : Repo.
Variable inputs : AuditInputs.

(** Category 1 *)
Definition auditIdentityAccessControl : CategoryScore :=
  let t := mkTally 0 [] in
  let hasAuth :=
    searchCodebase repo ["auth"; "authentication"; "passport"; "jwt"; "session"] in
  let t :=
    if hasAuth then add 1 (push "✓ Authentication patterns found in codebase" t)
    else push "✗ No authentication implementation detected" t in
  let hasRBAC :=
    searchCodebase repo ["role"; "permission"; "authorization"; "rbac"; "acl"] in
  let t :=
    if hasRBAC then add 1 (push "✓ Role-based access control patterns found" t)
    else push "✗ No RBAC implementation detected" t in
  let hasHardcodedCreds := searchForHardcodedSecrets repo in
  let t :=
    if negb hasHardcodedCreds
    then add 1 (push "✓ No obvious hardcoded credentials found" t)
    else push "✗ CRITICAL: Potential hardcoded credentials detected" t in
  let hasBasicAuth :=
    fileExists repo ".env" || fileExists repo ".env.example"
    || searchCodebase repo ["BASIC_AUTH"; "basic-auth"] in
  let t :=
    if hasBasicAuth then add 1 (push "✓ Basic auth configuration detected" t)
    else push "⚠ No basic auth configuration found" t in
  let hasLeastPrivilege :=
    searchCodebase repo ["least-privilege"; "minimal-permissions"] in
  let t :=
    if hasLeastPrivilege then add 1 (push "✓ Least privilege patterns found" t)
    else push "⚠ Least privilege principles not explicitly documented" t in
  close t
    ("Authentication: " +:+ (if hasAuth then "Partial" else "Missing")
     +:+ ". RBAC: " +:+ (if hasRBAC then "Present" else "Missing")
     +:+ ". Hardcoded secrets: "
     +:+ (if hasHardcodedCreds then "FOUND (CRITICAL)" else "None found")
     +:+ ".").

(** Category 2 *)
Definition auditSecretsConfig : CategoryScore :=
  let t := mkTally 0 [] in
  let hasEnvExample := fileExists repo ".env.example" in
  let hasEnvInGitignore := fileContains repo ".gitignore" ".env" in
  let t :=
    if hasEnvExample && hasEnvInGitignore
    then add 2 (push "✓ .env.example exists and .env is gitignored" t)
    else if hasEnvExample || hasEnvInGitignore
    then add 1 (push "⚠ Partial .env configuration (missing .env.example or .gitignore entry)" t)
    else push "✗ No .env configuration detected" t in
  let hasCommittedSecrets := searchForCommittedSecrets repo in
  let t :=
    if negb hasCommittedSecrets
    then add 2 (push "✓ No obvious committed secrets detected" t)
    else push "✗ CRITICAL: Potential committed secrets found" t in
  let hasConfigDocs :=
    fileContains repo "README.md" "environment"
    || fileContains repo "README.md" "configuration" in
  let t :=
    if hasConfigDocs then add 1 (push "✓ Configuration documented in README" t)
    else push "⚠ Configuration not documented in README" t in
  close t
    (".env handling: "
     +:+ (if hasEnvExample && hasEnvInGitignore then "Good" else "Needs improvement")
     +:+ ". Committed secrets: "
     +:+ (if hasCommittedSecrets then "FOUND (CRITICAL)" else "None found")
     +:+ ".").

(** Category 3 *)
Definition auditDataSafety : CategoryScore :=
  let t := mkTally 0 [] in
  let hasDataStorage :=
    searchInFiles repo ["database"; "storage"; "postgres"; "mongodb"; "redis"] in
  let t :=
    if hasDataStorage then add 1 (push "✓ Data storage configuration found" t)
    else push "⚠ Data storage not clearly documented" t in
  let hasEncryption :=
    searchCodebase repo ["encrypt"; "crypto"; "tls"; "ssl"; "https"] in
  let t :=
    if hasEncryption then add 1 (push "✓ Encryption patterns found in codebase" t)
    else push "✗ No encryption implementation detected" t in
  let hasBackup := searchInFiles repo ["backup"; "snapshot"; "restore"] in
  let t :=
    if hasBackup then add 1 (push "✓ Backup/snapshot mechanisms found" t)
    else push "✗ No backup strategy documented" t in
  let hasRetention :=
    searchInFiles repo ["retention"; "data-lifecycle"; "cleanup"; "purge"] in
  let t :=
    if hasRetention then add 1 (push "✓ Data retention/cleanup logic found" t)
    else push "⚠ No data retention policy documented" t in
  let t :=
    if handlesPII inputs then
      let hasPIIProtection :=
        searchCodebase repo ["pii"; "gdpr"; "privacy"; "personal-data"] in
      if hasPIIProtection then add 1 (push "✓ PII protection patterns found" t)
      else push "✗ CRITICAL: Handles PII but no protection patterns found" t
    else push "○ PII handling not applicable" (add 1 t) in
  close t
    ("Data storage: " +:+ (if hasDataStorage then "Documented" else "Unclear")
     +:+ ". Encryption: " +:+ (if hasEncryption then "Present" else "Missing")
     +:+ ". Backup: " +:+ (if hasBackup then "Found" else "Missing")
     +:+ ".").

(** Category 4 *)
Definition auditReliability : CategoryScore :=
  let t := mkTally 0 [] in
  let hasErrorHandling :=
    searchCodebase repo ["try"; "catch"; "error"; "exception"] in
  let t :=
    if hasErrorHandling then add 1 (push "✓ Error handling patterns found" t)
    else push "✗ No error handling detected" t in
  let hasTimeouts := searchCodebase repo ["timeout"; "deadline"; "abort"] in
  let t :=
    if hasTimeouts then add 1 (push "✓ Timeout handling found" t)
    else push "⚠ No timeout handling detected" t in
  let hasRetries := searchCodebase repo ["retry"; "backoff"; "exponential"] in
  let t :=
    if hasRetries then add 1 (push "✓ Retry logic found" t)
    else push "⚠ No retry logic detected" t in
  let hasGracefulDegradation :=
    searchCodebase repo ["fallback"; "graceful"; "degradation"] in
  let t :=
    if hasGracefulDegradation
    then add 1 (push "✓ Graceful degradation patterns found" t)
    else push "⚠ No graceful degradation detected" t in
  let hasHealthCheck :=
    searchCodebase repo ["health"; "readiness"; "liveness"; "/health"] in
  let t :=
    if hasHealthCheck then add 1 (push "✓ Health check endpoints found" t)
    else push "⚠ No health check endpoints detected" t in
  close t
    ("Error handling: " +:+ (if hasErrorHandling then "Present" else "Missing")
     +:+ ". Timeouts: " +:+ (if hasTimeouts then "Present" else "Missing")
     +:+ ". Retries: " +:+ (if hasRetries then "Present" else "Missing")
     +:+ ".").

(** Category 5 *)
Definition auditObservability : CategoryScore :=
  let t := mkTally 0 [] in
  let hasLogging :=
    searchCodebase repo ["console.log"; "logger"; "winston"; "pino"; "bunyan"] in
  let t :=
    if hasLogging then add 1 (push "✓ Logging implementation found" t)
    else push "✗ No logging detected" t in
  let hasStructuredLogs :=
    searchCodebase repo ["winston"; "pino"; "bunyan"; "structured"] in
  let t :=
    if hasStructuredLogs then add 1 (push "✓ Structured logging patterns found" t)
    else push "⚠ No structured logging detected" t in
  let hasErrorTracking :=
    searchCodebase repo ["sentry"; "rollbar"; "bugsnag"; "error-tracking"] in
  let t :=
    if hasErrorTracking then add 1 (push "✓ Error tracking service found" t)
    else push "✗ No error tracking service detected" t in
  let hasMetrics :=
    searchCodebase repo ["prometheus"; "metrics"; "statsd"; "datadog"] in
  let t :=
    if hasMetrics then add 1 (push "✓ Metrics collection found" t)
    else push "⚠ No metrics collection detected" t in
  let hasAlerts :=
    searchCodebase repo ["alert"; "notification"; "webhook"; "slack"; "teams"] in
  let t :=
    if hasAlerts then add 1 (push "✓ Alert mechanisms found" t)
    else push "⚠ No alert mechanisms detected" t in
  close t
    ("Logging: " +:+ (if hasLogging then "Present" else "Missing")
     +:+ ". Structured: " +:+ (if hasStructuredLogs then "Yes" else "No")
     +:+ ". Error tracking: " +:+ (if hasErrorTracking then "Present" else "Missing")
     +:+ ".").

(** Category 6 *)
Definition auditCICD : CategoryScore :=
  let t := mkTally 0 [] in
  let hasCIConfig :=
    fileExists repo ".github/workflows" || fileExists repo ".gitlab-ci.yml"
    || fileExists repo ".circleci/config.yml" in
  let t :=
    if hasCIConfig then add 1 (push "✓ CI configuration found" t)
    else push "✗ No CI configuration detected" t in
  let hasTestsInCI :=
    searchInDirectory repo ".github/workflows" ["test"; "npm test"; "vitest"] in
  let t :=
    if hasTestsInCI then add 1 (push "✓ Tests run in CI" t)
    else push "⚠ No test execution in CI detected" t in
  let hasLintingInCI :=
    searchInDirectory repo ".github/workflows" ["lint"; "eslint"; "prettier"] in
  let t :=
    if hasLintingInCI then add 1 (push "✓ Linting in CI" t)
    else push "⚠ No linting in CI detected" t in
  let hasBuildInCI :=
    searchInDirectory repo ".github/workflows"
      ["build"; "npm run build"; "turbo build"] in
  let t :=
    if hasBuildInCI then add 1 (push "✓ Build verification in CI" t)
    else push "⚠ No build verification in CI detected" t in
  let hasRollback :=
    searchInFiles repo ["rollback"; "revert"; "blue-green"; "canary"] in
  let t :=
    if hasRollback then add 1 (push "✓ Rollback strategy documented" t)
    else push "⚠ No rollback strategy documented" t in
  close t
    ("CI present: " +:+ (if hasCIConfig then "Yes" else "No")
     +:+ ". Tests: " +:+ (if hasTestsInCI then "Running" else "Not running")
     +:+ ". Linting: " +:+ (if hasLintingInCI then "Yes" else "No")
     +:+ ".").

(** Category 7 *)
Definition auditSecurity : CategoryScore :=
  let t := mkTally 0 [] in
  let hasInputValidation :=
    searchCodebase repo ["validate"; "sanitize"; "zod"; "joi"; "yup"] in
  let t :=
    if hasInputValidation then add 1 (push "✓ Input validation patterns found" t)
    else push "✗ No input validation detected" t in
  let hasRateLimit := searchCodebase repo ["rate-limit"; "ratelimit"; "throttle"] in
  let t :=
    if hasRateLimit then add 1 (push "✓ Rate limiting found" t)
    else push "⚠ No rate limiting detected" t in
  let hasCORS := searchCodebase repo ["cors"; "origin"; "CORS"] in
  let t :=
    if hasCORS then add 1 (push "✓ CORS configuration found" t)
    else push "⚠ No CORS configuration detected" t in
  let hasCSP :=
    searchCodebase repo ["content-security-policy"; "csp"; "helmet"] in
  let t :=
    if hasCSP then add 1 (push "✓ CSP headers found" t)
    else push "⚠ No CSP headers detected" t in
  let hasDependencyScan :=
    fileExists repo "package-lock.json" || fileExists repo "pnpm-lock.yaml"
    || searchInDirectory repo ".github/workflows" ["dependabot"; "snyk"; "audit"] in
  let t :=
    if hasDependencyScan then add 1 (push "✓ Dependency scanning available" t)
    else push "⚠ No dependency scanning detected" t in
  close t
    ("Input validation: " +:+ (if hasInputValidation then "Present" else "Missing")
     +:+ ". Rate limiting: " +:+ (if hasRateLimit then "Present" else "Missing")
     +:+ ". CORS: " +:+ (if hasCORS then "Configured" else "Not configured")
     +:+ ".").

(** Category 8 *)
Definition auditTesting : CategoryScore :=
  let t := mkTally 0 [] in
  let hasTests :=
    searchForFiles repo ["*.test.ts"; "*.spec.ts"; "*.test.js"; "*.spec.js"] in
  let t :=
    if hasTests then add 1 (push "✓ Test files found" t)
    else push "✗ No test files detected" t in
  let hasTestFramework :=
    searchInFiles repo ["vitest"; "jest"; "mocha"; "jasmine"] in
  let t :=
    if hasTestFramework then add 1 (push "✓ Test framework configured" t)
    else push "⚠ No test framework detected" t in
  let hasIntegrationTests :=
    searchCodebase repo ["integration"; "e2e"; "playwright"; "cypress"] in
  let t :=
    if hasIntegrationTests then add 1 (push "✓ Integration/E2E tests found" t)
    else push "⚠ No integration tests detected" t in
  let hasCoverage := searchInFiles repo ["coverage"; "istanbul"; "c8"; "nyc"] in
  let t :=
    if hasCoverage then add 1 (push "✓ Code coverage tooling found" t)
    else push "⚠ No coverage tooling detected" t in
  let hasSmokeTests := searchCodebase repo ["smoke"; "sanity"; "health-check"] in
  let t :=
    if hasSmokeTests then add 1 (push "✓ Smoke tests found" t)
    else push "⚠ No smoke tests detected" t in
  close t
    ("Test files: " +:+ (if hasTests then "Present" else "Missing")
     +:+ ". Framework: " +:+ (if hasTestFramework then "Configured" else "Missing")
     +:+ ". Integration tests: "
     +:+ (if hasIntegrationTests then "Present" else "Missing")
     +:+ ".").

(** Category 9 *)
Definition auditPerformance : CategoryScore :=
  let t := mkTally 0 [] in
  let hasRateLimit := searchCodebase repo ["rate-limit"; "throttle"; "quota"] in
  let t :=
    if hasRateLimit then add 1 (push "✓ Rate limiting found" t)
    else push "⚠ No rate limiting detected" t in
  let hasResourceLimits :=
    searchCodebase repo ["max-memory"; "max-connections"; "pool-size"; "limits"] in
  let t :=
    if hasResourceLimits then add 1 (push "✓ Resource limits configured" t)
    else push "⚠ No resource limits detected" t in
  let hasCaching := searchCodebase repo ["cache"; "redis"; "memcached"; "cdn"] in
  let t :=
    if hasCaching then add 1 (push "✓ Caching mechanisms found" t)
    else push "⚠ No caching detected" t in
  let hasPerfBudgets :=
    searchCodebase repo ["performance"; "budget"; "lighthouse"] in
  let t :=
    if hasPerfBudgets then add 1 (push "✓ Performance budgets found" t)
    else push "⚠ No performance budgets detected" t in
  let hasCostControls := searchCodebase repo ["cost"; "billing"; "usage-limit"] in
  let t :=
    if hasCostControls then add 1 (push "✓ Cost control mechanisms found" t)
    else push "⚠ No cost controls detected" t in
  close t
    ("Rate limits: " +:+ (if hasRateLimit then "Present" else "Missing")
     +:+ ". Caching: " +:+ (if hasCaching then "Present" else "Missing")
     +:+ ". Resource limits: "
     +:+ (if hasResourceLimits then "Present" else "Missing")
     +:+ ".").

(** Category 10 *)
Definition auditDocumentation : CategoryScore :=
  let t := mkTally 0 [] in
  let hasReadme := fileExists repo "README.md" in
  let t :=
    if hasReadme then add 1 (push "✓ README.md exists" t)
    else push "✗ No README.md found" t in
  let hasSetup :=
    fileContains repo "README.md" "install"
    || fileContains repo "README.md" "setup"
    || fileContains repo "README.md" "getting started" in
  let t :=
    if hasSetup then add 1 (push "✓ Setup instructions in README" t)
    else push "⚠ No setup instructions in README" t in
  let hasRunbook :=
    searchForFiles repo ["RUNBOOK.md"; "OPERATIONS.md"; "runbook*"] in
  let t :=
    if hasRunbook then add 1 (push "✓ Runbook/operations guide found" t)
    else push "⚠ No runbook found" t in
  let hasIncidentProc :=
    searchInFiles repo ["incident"; "escalation"; "on-call"; "emergency"] in
  let t :=
    if hasIncidentProc then add 1 (push "✓ Incident procedures documented" t)
    else push "⚠ No incident procedures found" t in
  let hasAPIDocs :=
    searchForFiles repo ["*.swagger.*"; "*.openapi.*"; "API.md"]
    || searchCodebase repo ["swagger"; "openapi"; "api-docs"] in
  let t :=
    if hasAPIDocs then add 1 (push "✓ API documentation found" t)
    else push "⚠ No API documentation detected" t in
  close t
    ("README: " +:+ (if hasReadme then "Present" else "Missing")
     +:+ ". Setup: " +:+ (if hasSetup then "Documented" else "Missing")
     +:+ ". Runbook: " +:+ (if hasRunbook then "Present" else "Missing")
     +:+ ".").

(** [performRuntimeCheck(url)]: a placeholder that checks nothing. *)
Definition performRuntimeCheck (url : string) : RuntimeCheck :=
  mkRuntimeCheck None None
    [ "UNVERIFIED — Runtime check requires HTTP client (fetch/axios)";
      "⚠ Implement actual HTTP checks for: status, response time, headers, auth behavior" ].

(** [classifyReadiness]: the level for a total score. *)
Definition readinessOf (total : nat) : string :=
  if 43 <=? total then "Public Beta Ready"
  else if 36 <=? total then "Employee Pilot Ready (with conditions)"
  else if 26 <=? total then "Dev Preview"
  else "Prototype".

Definition classifyReadiness (results : AuditResults) : AuditResults :=
  mkResults (categories results) (runtimeCheck results) (totalScore results)
    (resultsMaxScore results) (readinessOf (totalScore results))
    (criticalBlockers results) (publicLaunchBlockers results)
    (topImprovements results) (executiveSummary results).

(** The three arrays [generateBlockersAndImprovements] fills. *)
Record Blockers := mkBlockers {
  critical : list string;
  publicBlockers : list string;
  improvements : list string
}.

(** [data.findings.filter(f => f.includes('CRITICAL'))] *)
Definition criticalFindings (data : CategoryScore) : list string :=
  filter (λ f, includes "CRITICAL" f = true) (findings data).

(** The callback of the [forEach] over the categories. *)
Definition blockersOf (acc : Blockers) (entry : string * CategoryScore) : Blockers :=
  let '(category, data) := entry in
  let acc :=
    mkBlockers (critical acc ++ criticalFindings data)
      (publicBlockers acc) (improvements acc) in
  let acc :=
    if score data <=? 2 then
      mkBlockers (critical acc)
        (publicBlockers acc
         ++ [category +:+ ": Score " +:+ pretty (score data)
             +:+ "/5 - Needs significant improvement"])
        (improvements acc)
    else acc in
  if score data <? 4 then
    mkBlockers (critical acc) (publicBlockers acc)
      (improvements acc ++ ["Improve " +:+ category +:+ ": " +:+ reasoning data])
  else acc.

Definition generateBlockersAndImprovements (results : AuditResults) : AuditResults :=
  let acc :=
    foldl blockersOf (mkBlockers [] [] []) (entries (categories results)) in
  let criticalBlockers := critical acc in
  let criticalBlockers :=
    if handlesPII inputs && (score (dataSafety (categories results)) <? 4)
    then criticalBlockers ++ ["CRITICAL: Handles PII but data safety score is low"]
    else criticalBlockers in
  let criticalBlockers :=
    if handlesPayments inputs && (score (security (categories results)) <? 4)
    then criticalBlockers ++ ["CRITICAL: Handles payments but security score is low"]
    else criticalBlockers in
  mkResults (categories results) (runtimeCheck results) (totalScore results)
    (resultsMaxScore results) (readinessLevel results)
    criticalBlockers (publicBlockers acc) (take 5 (improvements acc))
    (executiveSummary results).

Definition generateExecutiveSummary (results : AuditResults) : AuditResults :=
  let cats := categories results in
  let forEmployees :=
    (30 <=? totalScore results)
    && (length (criticalBlockers results) =? 0) in
  let forCustomers :=
    (43 <=? totalScore results)
    && (length (criticalBlockers results) =? 0)
    && (4 <=? score (security cats))
    && (4 <=? score (dataSafety cats)) in
  let weakCategories :=
    (λ entry : string * CategoryScore,
       entry.1 +:+ " (score: " +:+ pretty (score entry.2) +:+ "/5)")
      <$> filter (λ entry : string * CategoryScore, score entry.2 ≤ 2)
            (entries cats) in
  let breakFirst :=
    if 0 <? length weakCategories then weakCategories
    else ["System appears relatively stable, but stress testing recommended"] in
  let concerns :=
    criticalBlockers results
    ++ (if score (security cats) <? 3 then ["Low security hardening score"] else [])
    ++ (if score (identityAccessControl cats) <? 3
        then ["Weak identity & access control"] else []) in
  let concerns :=
    if length concerns =? 0
    then concerns
         ++ ["No major security concerns identified, but thorough security audit recommended"]
    else concerns in
  mkResults cats (runtimeCheck results) (totalScore results)
    (resultsMaxScore results) (readinessLevel results)
    (criticalBlockers results) (publicLaunchBlockers results)
    (topImprovements results)
    (mkSummary forEmployees forCustomers breakFirst concerns).

(** [audit()] *)
Definition audit : AuditResults :=
  let cats :=
    mkCategories auditIdentityAccessControl auditSecretsConfig auditDataSafety
      auditReliability auditObservability auditCICD auditSecurity auditTesting
      auditPerformance auditDocumentation in
  let results :=
    mkResults cats None 0 50 EmptyString [] [] [] (mkSummary false false [] []) in
  let results :=
    mkResults (categories results) (runtimeCheck results)
      (foldl (λ sum cat, sum + score cat) 0 (values (categories results)))
      (resultsMaxScore results) (readinessLevel results)
      (criticalBlockers results) (publicLaunchBlockers results)
      (topImprovements results) (executiveSummary results) in
  let results :=
    match deploymentUrl inputs with
    | Some url =>
        if decide (truthy url) then
          mkResults (categories results) (Some (performRuntimeCheck url))
            (totalScore results) (resultsMaxScore results)
            (readinessLevel results) (criticalBlockers results)
            (publicLaunchBlockers results) (topImprovements results)
            (executiveSummary results)
        else results
    | None => results
    end in
  let results := classifyReadiness results in
  let results := generateBlockersAndImprovements results in
  generateExecutiveSummary results.
End Auditor.

(** The argument of [process.exit] on line 1160,
    [results.criticalBlockers.length > 0 ? 1 : 0].  It is the exit code
    of a run that wrote its report; when [main] throws, the handler of
    lines 1164-1167 exits with 1 whatever the results are. *)
Definition exitCode (results : AuditResults) : nat :=
  if 0 <? length (criticalBlockers results) then 1 else 0.

(** The default inputs of [main]; [cwd] is [process.cwd()]. *)
Definition defaultInputs (cwd : string) : AuditInputs :=
  mkInputs cwd None "Both" false false true.

(** The last three branches of the loop of [main]: the flags that take
    no value. *)
Definition parseFlag (arg : string) (inputs : AuditInputs) : AuditInputs :=
  if decide (arg = "--handles-pii") then
    mkInputs (repoPath inputs) (deploymentUrl inputs) (intendedAudience inputs)
      true (handlesPayments inputs) (handlesSecrets inputs)
  else if decide (arg = "--handles-payments") then
    mkInputs (repoPath inputs) (deploymentUrl inputs) (intendedAudience inputs)
      (handlesPII inputs) true (handlesSecrets inputs)
  else if decide (arg = "--handles-secrets") then
    mkInputs (repoPath inputs) (deploymentUrl inputs) (intendedAudience inputs)
      (handlesPII inputs) (handlesPayments inputs) true
  else inputs.

(** The loop of [main] over [process.argv.slice(2)]: an option that
    takes a value needs a following argument that is not empty, and
    skips it ([i++]). *)
Fixpoint parseArgs (inputs : AuditInputs) (args : list string) : AuditInputs :=
  match args with
  | [] => inputs
  | arg :: rest =>
      match rest with
      | value :: rest' =>
          if decide (arg = "--repo-path" ∧ truthy value) then
            parseArgs
              (mkInputs value (deploymentUrl inputs) (intendedAudience inputs)
                 (handlesPII inputs) (handlesPayments inputs)
                 (handlesSecrets inputs)) rest'
          else if decide (arg = "--deployment-url" ∧ truthy value) then
            parseArgs
              (mkInputs (repoPath inputs) (Some value) (intendedAudience inputs)
                 (handlesPII inputs) (handlesPayments inputs)
                 (handlesSecrets inputs)) rest'
          else if decide (arg = "--audience" ∧ truthy value) then
            parseArgs
              (mkInputs (repoPath inputs) (deploymentUrl inputs) value
                 (handlesPII inputs) (handlesPayments inputs)
                 (handlesSecrets inputs)) rest'
          else parseArgs (parseFlag arg inputs) rest
      | [] => parseArgs (parseFlag arg inputs) rest
      end
  end.

End Audit.

(** Sample repositories and inputs for the audit. *)
Module AuditSample.
Import Audit.

(** A repository in which every search succeeds and no secret is found. *)
Definition ready_repo : Repo :=
  mkRepo (λ _, true) (λ _ _, true) (λ _, true) (λ _, true) (λ _ _, true)
    (λ _, true) false false.

(** A repository in which nothing is found but a hardcoded secret. *)
Definition bare_repo : Repo :=
  mkRepo (λ _, false) (λ _ _, false) (λ _, false) (λ _, false) (λ _ _, false)
    (λ _, false) true false.

Definition plain_inputs : AuditInputs := defaultInputs "/repo".

Definition other_inputs : AuditInputs :=
  mkInputs "/elsewhere" (Some "https://example.org") "Public" false false false.
End AuditSample.

(** ** Seed extraction: properties *)

Lemma seeds_cons_skip_role m rest :
  msg_role m ≠ "user" →
  filter (λ s, truthy (seed_title s))
    (fmap seed_of (filter (λ m, msg_role m = "user") (m :: rest)))
  = filter (λ s, truthy (seed_title s))
    (fmap seed_of (filter (λ m, msg_role m = "user") rest)).
Proof. intros Hr. by rewrite filter_cons_False. Qed.

Lemma text_of_spec m : String.list_ascii_of_string (text_of m) = spec_text m.
Proof.
  unfold text_of, spec_text.
  by destruct (msg_text m), (msg_content m).
Qed.

Lemma first_line_spec s :
  String.list_ascii_of_string (first_line s)
  = spec_first_line (String.list_ascii_of_string s).
Proof.
  induction s as [|c s IH]; [done|]. simpl.
  destruct (Ascii.eqb_spec c "010") as [->|Hc].
  - by rewrite decide_True.
  - rewrite decide_False by done. simpl. by rewrite IH.
Qed.

Lemma slice_to_spec n s :
  slice_to n s
  = String.string_of_list_ascii (take n (String.list_ascii_of_string s)).
Proof.
  unfold slice_to. revert s. induction n as [|n IH]; intros s.
  - by destruct s.
  - destruct s as [|c s]; [done|]. simpl. by rewrite IH.
Qed.

(** The title the code computes is the specification's. *)
Lemma title_of_spec m : title_of m = spec_title m.
Proof.
  unfold title_of, spec_title.
  by rewrite slice_to_spec, first_line_spec, text_of_spec.
Qed.

Lemma qualifying_pipeline messages :
  qualifying messages
  = filter (λ s, truthy (seed_title s))
      (fmap seed_of (filter (λ m, msg_role m = "user") messages)).
Proof.
  induction messages as [|m rest IH]; [done|].
  simpl qualifying. destruct (decide (msg_role m = "user")) as [Hu|Hu].
  - rewrite filter_cons_True by done. rewrite fmap_cons.
    unfold seed_of at 1. rewrite title_of_spec.
    destruct (decide (spec_title m = EmptyString)) as [Ht|Ht].
    + rewrite filter_cons_False; [done|].
      unfold truthy; simpl. by intros ?.
    + rewrite filter_cons_True by done.
      by rewrite IH.
  - by rewrite seeds_cons_skip_role.
Qed.

Lemma extractSeeds_take cap messages :
  extractSeeds cap messages = take cap (qualifying messages).
Proof.
  revert cap. induction messages as [|m rest IH]; intros cap.
  - by destruct cap.
  - destruct cap as [|cap']; simpl; [by rewrite take_0|].
    repeat case_decide; rewrite ?IH; done.
Qed.




(** C4.  The seeds are the first 12 of the sequence got from the user
    messages, in the order of the messages, by giving each the title
    "first line of its text, cut at 80 characters" ([spec_title]) and
    dropping those whose title is empty; a message that is dropped uses
    up none of the 12; and more than 12 such messages give exactly 12
    seeds. *)
Theorem seeds_first_twelve messages :
  seeds messages = take 12 (qualifying messages)
  ∧ seeds messages = extractSeeds 12 messages
  ∧ length (seeds messages) = 12 `min` length (qualifying messages)
  ∧ (12 < length (qualifying messages) → length (seeds messages) = 12).
Proof.
  assert (seeds messages = take 12 (qualifying messages)) as Heq.
  { unfold seeds. by rewrite qualifying_pipeline. }
  split_and!; [done | by rewrite extractSeeds_take | |].
  - by rewrite Heq, length_take.
  - intros Hlong. rewrite Heq, length_take. lia.
Qed.

Lemma filter_agree {A} (P Q : A → Prop)
    `{!∀ x, Decision (P x), !∀ x, Decision (Q x)} (l : list A) :
  (∀ x, x ∈ l → P x ↔ Q x) → filter P l = filter Q l.
Proof.
  induction l as [|y l IH]; intros Hl; [done|].
  rewrite !filter_cons.
  rewrite IH by (intros x Hx; apply Hl; by right).
  apply decide_ext, Hl. by left.
Qed.

Lemma filter_none {A} (P : A → Prop) `{!∀ x, Decision (P x)} (l : list A) :
  (∀ x, x ∈ l → ¬ P x) → filter P l = [].
Proof.
  induction l as [|y l IH]; intros Hl; [done|].
  rewrite filter_cons_False by (apply Hl; by left).
  apply IH. intros x Hx. apply Hl. by right.
Qed.

(** ** [Set]: properties *)

Lemma Set_add_elem s x y : y ∈ Set_add s x ↔ y ∈ s ∨ y = x.
Proof.
  unfold Set_add. case_decide.
  - split; [by left | intros [?| ->]; done].
  - rewrite elem_of_app, list_elem_of_singleton. done.
Qed.

Lemma Set_add_NoDup s x : NoDup s → NoDup (Set_add s x).
Proof.
  intros Hs. unfold Set_add. case_decide; [done|].
  apply NoDup_app. split_and!; [done| |apply NoDup_singleton].
  intros y Hy ->%list_elem_of_singleton. done.
Qed.

Lemma Set_add_prefix s x : s `prefix_of` Set_add s x.
Proof. unfold Set_add. case_decide; [done | by apply prefix_app_r]. Qed.

Lemma Set_add_length s x : length (Set_add s x) ≤ S (length s).
Proof. unfold Set_add. case_decide; rewrite ?length_app; simpl; lia. Qed.

Lemma foldl_Set_add_elem xs s y :
  y ∈ foldl Set_add s xs ↔ y ∈ s ∨ y ∈ xs.
Proof.
  revert s. induction xs as [|x xs IH]; intros s; simpl.
  - rewrite elem_of_nil. tauto.
  - rewrite IH, Set_add_elem, elem_of_cons. tauto.
Qed.

Lemma foldl_Set_add_NoDup xs s : NoDup s → NoDup (foldl Set_add s xs).
Proof.
  revert s. induction xs as [|x xs IH]; intros s Hs; simpl; [done|].
  by apply IH, Set_add_NoDup.
Qed.

Lemma foldl_Set_add_prefix xs s : s `prefix_of` foldl Set_add s xs.
Proof.
  revert s. induction xs as [|x xs IH]; intros s; simpl; [done|].
  etrans; [apply (Set_add_prefix s x) | apply IH].
Qed.

Lemma foldl_Set_add_length xs s :
  length (foldl Set_add s xs) ≤ length s + length xs.
Proof.
  revert s. induction xs as [|x xs IH]; intros s; simpl; [lia|].
  specialize (IH (Set_add s x)). pose proof (Set_add_length s x). lia.
Qed.

(** The elements of [Array.from(new Set(xs))] are those of [xs]. *)
Lemma Set_from_elem xs y : y ∈ Set_from xs ↔ y ∈ xs.
Proof.
  unfold Set_from. rewrite foldl_Set_add_elem, elem_of_nil. tauto.
Qed.

Lemma Set_from_NoDup xs : NoDup (Set_from xs).
Proof. apply foldl_Set_add_NoDup, NoDup_nil_2. Qed.

Lemma Set_from_length xs : length (Set_from xs) ≤ length xs.
Proof. unfold Set_from. pose proof (foldl_Set_add_length xs []). simpl in *. lia. Qed.

(** The first element inserted is the first element of the array. *)
Lemma Set_from_head x xs : head (Set_from (x :: xs)) = Some x.
Proof.
  unfold Set_from. simpl. unfold Set_add at 2.
  rewrite decide_False by apply not_elem_of_nil. simpl.
  destruct (foldl_Set_add_prefix xs [x]) as [k ->]. done.
Qed.

Lemma foldl_Set_add_sublist xs s :
  ∃ k, foldl Set_add s xs = s ++ k ∧ k `sublist_of` xs.
Proof.
  revert s. induction xs as [|x xs IH]; intros s; simpl.
  - exists []. by rewrite app_nil_r.
  - destruct (IH (Set_add s x)) as (k & -> & Hk).
    unfold Set_add. case_decide.
    + exists k. split; [done | by apply sublist_cons].
    + exists (x :: k). split; [by rewrite <- app_assoc | by apply sublist_skip].
Qed.

(** [Array.from(new Set(xs))] keeps the order of [xs]. *)
Lemma Set_from_sublist xs : Set_from xs `sublist_of` xs.
Proof.
  unfold Set_from. by destruct (foldl_Set_add_sublist xs []) as (k & -> & Hk).
Qed.

(** ** The claiming pass: properties *)

Lemma claim_assigned a l : (claim a l).2 = a ∪ list_to_set l.
Proof.
  revert a. induction l as [|i rest IH]; intros a; simpl.
  - set_solver.
  - case_decide.
    + rewrite IH. set_solver.
    + specialize (IH ({[i]} ∪ a)).
      destruct (claim ({[i]} ∪ a) rest) as [kept a']. simpl in *.
      subst a'. set_solver.
Qed.

Lemma claim_kept_elem a l x :
  x ∈ (claim a l).1 ↔ x ∈ l ∧ x ∉ a.
Proof.
  revert a. induction l as [|i rest IH]; intros a; simpl.
  - rewrite elem_of_nil. tauto.
  - case_decide as Hi.
    + rewrite IH, elem_of_cons. split; [tauto|].
      intros [[->|?] ?]; tauto.
    + specialize (IH ({[i]} ∪ a)).
      destruct (claim ({[i]} ∪ a) rest) as [kept a']. simpl in *.
      rewrite !elem_of_cons, IH.
      destruct (decide (x = i)) as [->|Hne]; [tauto|].
      set_solver.
Qed.

Lemma claim_kept_NoDup a l : NoDup (claim a l).1.
Proof.
  revert a. induction l as [|i rest IH]; intros a; simpl.
  - apply NoDup_nil_2.
  - case_decide as Hi; [apply IH|].
    pose proof (IH ({[i]} ∪ a)) as Hnd.
    pose proof (claim_kept_elem ({[i]} ∪ a) rest i) as Hel.
    destruct (claim ({[i]} ∪ a) rest) as [kept a']. simpl in *.
    apply NoDup_cons. split; [|done].
    rewrite Hel. set_solver.
Qed.

Lemma claim_kept_length a l : length (claim a l).1 ≤ length l.
Proof.
  revert a. induction l as [|i rest IH]; intros a; simpl; [done|].
  case_decide.
  - specialize (IH a). lia.
  - specialize (IH ({[i]} ∪ a)).
    destruct (claim ({[i]} ∪ a) rest) as [kept a']. simpl in *. lia.
Qed.

(** On an array without repetition the callback keeps exactly the ids
    that were not assigned when it was entered, in their order. *)
Lemma claim_kept_filter a l :
  NoDup l → (claim a l).1 = filter (λ x, x ∉ a) l.
Proof.
  revert a. induction l as [|i rest IH]; intros a Hnd; simpl; [done|].
  apply NoDup_cons in Hnd as [Hi Hnd].
  case_decide as Ha.
  - rewrite filter_cons_False by (intros ?; done). by apply IH.
  - rewrite filter_cons_True by done.
    specialize (IH ({[i]} ∪ a) Hnd).
    destruct (claim ({[i]} ∪ a) rest) as [kept a']. simpl in *.
    rewrite IH. f_equal.
    apply filter_agree. intros x Hx.
    assert (x ≠ i) by (intros ->; done). set_solver.
Qed.

Lemma claim_assigned_kept a l :
  (claim a l).2 = a ∪ list_to_set (claim a l).1.
Proof.
  rewrite claim_assigned. apply set_eq. intros x.
  rewrite !elem_of_union, !elem_of_list_to_set, claim_kept_elem.
  destruct (decide (x ∈ a)); tauto.
Qed.

Lemma claim_topic_title a t : title (claim_topic a t).1 = title t.
Proof. unfold claim_topic. by destruct (claim a (ids t)). Qed.

Lemma claim_topic_ids a t : ids (claim_topic a t).1 = (claim a (ids t)).1.
Proof. unfold claim_topic. by destruct (claim a (ids t)). Qed.

Lemma claim_topic_assigned a t :
  (claim_topic a t).2 = a ∪ list_to_set (ids t).
Proof.
  unfold claim_topic. pose proof (claim_assigned a (ids t)).
  by destruct (claim a (ids t)).
Qed.

(** Every id the callback returns for a topic is in [assigned] when the
    callback is entered for the next one. *)
Lemma claim_topic_assigned_kept a t :
  (claim_topic a t).2 = a ∪ list_to_set (ids (claim_topic a t).1).
Proof.
  rewrite claim_topic_ids. unfold claim_topic.
  pose proof (claim_assigned_kept a (ids t)).
  by destruct (claim a (ids t)).
Qed.

Lemma assign_cons a t rest :
  assign a (t :: rest)
  = (claim_topic a t).1 :: assign (claim_topic a t).2 rest.
Proof. simpl. by destruct (claim_topic a t). Qed.

Lemma assign_length a ts : length (assign a ts) = length ts.
Proof.
  revert a. induction ts as [|t rest IH]; intros a; [done|].
  rewrite assign_cons. simpl. by rewrite IH.
Qed.

Lemma assign_titles a ts : title <$> assign a ts = title <$> ts.
Proof.
  revert a. induction ts as [|t rest IH]; intros a; [done|].
  rewrite assign_cons, !fmap_cons, IH, claim_topic_title. done.
Qed.

Lemma assign_take a ts i : take i (assign a ts) = assign a (take i ts).
Proof.
  revert a i. induction ts as [|t rest IH]; intros a i.
  - by destruct i.
  - destruct i as [|i]; [done|].
    rewrite assign_cons. simpl take. rewrite assign_cons, IH. done.
Qed.

Lemma assign_lookup a ts i t :
  ts !! i = Some t →
  assign a ts !! i
  = Some (claim_topic (foldl (λ a t, (claim_topic a t).2) a (take i ts)) t).1.
Proof.
  revert a i. induction ts as [|t0 rest IH]; intros a i Hi; [done|].
  rewrite assign_cons. destruct i as [|i]; simpl in *.
  - by inversion Hi.
  - by apply IH.
Qed.

Lemma assign_members_elem a ts x :
  x ∈ concat (ids <$> assign a ts) → x ∉ a.
Proof.
  revert a. induction ts as [|t rest IH]; intros a; [by intros ?%elem_of_nil|].
  rewrite assign_cons, fmap_cons. simpl concat.
  rewrite elem_of_app, claim_topic_ids, claim_kept_elem.
  intros [[_ ?]|Hx]; [done|].
  apply IH in Hx. rewrite claim_topic_assigned in Hx. set_solver.
Qed.

Lemma assign_NoDup a ts : NoDup (concat (ids <$> assign a ts)).
Proof.
  revert a. induction ts as [|t rest IH]; intros a; [apply NoDup_nil_2|].
  rewrite assign_cons, fmap_cons. simpl concat.
  apply NoDup_app. split_and!; [|  |apply IH].
  - rewrite claim_topic_ids. apply claim_kept_NoDup.
  - intros x Hx Hx'. apply assign_members_elem in Hx'.
    rewrite claim_topic_assigned_kept in Hx'. set_solver.
Qed.

(** [assigned] holds exactly the ids returned so far. *)
Lemma assigned_members a ts :
  foldl (λ a t, (claim_topic a t).2) a ts
  = a ∪ list_to_set (concat (ids <$> assign a ts)).
Proof.
  revert a. induction ts as [|t rest IH]; intros a.
  - simpl. set_solver.
  - rewrite assign_cons, fmap_cons. simpl.
    rewrite IH, list_to_set_app_L.
    rewrite (claim_topic_assigned_kept a t) at 1. set_solver.
Qed.

Lemma assigned_at_members ts i :
  assigned_at ts i = list_to_set (concat (ids <$> take i (assign ∅ ts))).
Proof.
  unfold assigned_at. rewrite assigned_members, assign_take. set_solver.
Qed.

Lemma assigned_candidates a ts :
  foldl (λ a t, (claim_topic a t).2) a ts
  = a ∪ list_to_set (concat (ids <$> ts)).
Proof.
  revert a. induction ts as [|t rest IH]; intros a; simpl.
  - set_solver.
  - rewrite IH, claim_topic_assigned, list_to_set_app_L. set_solver.
Qed.

Lemma assigned_at_candidates ts i :
  assigned_at ts i = list_to_set (concat (ids <$> take i ts)).
Proof. unfold assigned_at. rewrite assigned_candidates. set_solver. Qed.

Lemma assign_members_sub a ts x :
  x ∈ concat (ids <$> assign a ts) → x ∈ concat (ids <$> ts).
Proof.
  revert a. induction ts as [|t rest IH]; intros a; [done|].
  rewrite assign_cons, !fmap_cons. simpl concat.
  rewrite !elem_of_app, claim_topic_ids, claim_kept_elem.
  intros [[? _]|Hx]; [by left | right; by eapply IH].
Qed.

Lemma total_ids_concat ts : total_ids ts = length (concat (ids <$> ts)).
Proof.
  unfold total_ids. induction ts as [|t rest IH]; [done|].
  rewrite !fmap_cons. simpl. rewrite length_app, IH. done.
Qed.

Lemma elem_of_concat {A} (ls : list (list A)) x :
  x ∈ concat ls ↔ ∃ i l, ls !! i = Some l ∧ x ∈ l.
Proof.
  induction ls as [|l0 ls IH]; simpl.
  - rewrite elem_of_nil. split; [done | by intros (i & l & ? & _)].
  - rewrite elem_of_app, IH. split.
    + intros [Hx|(i & l & Hi & Hx)]; [by exists 0, l0 | by exists (S i), l].
    + intros ([|i] & l & Hi & Hx); simpl in Hi.
      * left. by inversion Hi; subst.
      * right. by exists i, l.
Qed.

(** Lists whose concatenation has no repetition share no element. *)
Lemma NoDup_concat_apart {A} (ls : list (list A)) i j li lj x :
  NoDup (concat ls) → i < j →
  ls !! i = Some li → ls !! j = Some lj → x ∈ li → x ∉ lj.
Proof.
  revert i j. induction ls as [|l ls IH]; intros i j Hnd Hij Hi Hj Hx Hx'; [done|].
  simpl in Hnd. apply NoDup_app in Hnd as (_ & Hapart & Hnd).
  destruct j as [|j]; [lia|]. destruct i as [|i]; simpl in *.
  - inversion Hi; subst l. apply (Hapart x Hx).
    apply elem_of_concat. by exists j, lj.
  - eapply (IH i j); eauto with lia.
Qed.

Lemma NoDup_pairwise_disjoint ts :
  NoDup (concat (ids <$> ts)) → pairwise_disjoint ts.
Proof.
  intros Hnd i j ti tj x Hij Hi Hj Hx Hx'.
  assert (∀ (i j : nat) ti tj,
    i < j → ts !! i = Some ti → ts !! j = Some tj →
    x ∈ ids ti → x ∈ ids tj → False) as Hlt.
  { clear -Hnd. intros i j ti tj Hij Hi Hj Hx Hx'. revert Hx'.
    eapply (NoDup_concat_apart (ids <$> ts) i j); eauto.
    - by rewrite list_lookup_fmap, Hi.
    - by rewrite list_lookup_fmap, Hj. }
  destruct (decide (i < j)); [by eapply (Hlt i j)|].
  eapply (Hlt j i); eauto with lia.
Qed.

(** ** [cluster]: properties *)

Section ClusterFacts.
Context {Vec Score Store : Type}.
Context {embedder : Embedder Vec} {index : VectorIndex Vec Score Store}.
Implicit Types (uuid : nat → string) (w : World Store) (st : Store).
Implicit Types (messages : list Message) (s : Seed) (t : Topic).

Lemma cluster_unfold uuid w messages :
  cluster uuid w messages
  = assign ∅ (topics (store (ingest uuid w messages)) messages).
Proof. done. Qed.

Lemma topics_length st messages :
  length (topics st messages) = length (seeds messages).
Proof. unfold topics. by rewrite length_fmap. Qed.

Lemma topics_lookup st messages i s :
  seeds messages !! i = Some s →
  topics st messages !! i = Some (mkTopic (seed_title s) (candidates st s)).
Proof. intros Hs. unfold topics. by rewrite list_lookup_fmap, Hs. Qed.

Lemma topics_lookup_inv st messages i t :
  topics st messages !! i = Some t →
  ∃ s, seeds messages !! i = Some s
       ∧ t = mkTopic (seed_title s) (candidates st s).
Proof.
  unfold topics. rewrite list_lookup_fmap.
  destruct (seeds messages !! i) as [s|]; [|done].
  intros [= <-]. by exists s.
Qed.

Lemma candidates_head st s : head (candidates st s) = Some (seed_id s).
Proof. apply Set_from_head. Qed.

Lemma candidates_NoDup st s : NoDup (candidates st s).
Proof. apply Set_from_NoDup. Qed.

Lemma candidates_elem st s x :
  x ∈ candidates st s ↔
  x = seed_id s
  ∨ ∃ hit, hit ∈ query (embed (seed_title s)) 50 st ∧ x = Some (hit_id hit).
Proof.
  unfold candidates. rewrite Set_from_elem, elem_of_cons, list_elem_of_fmap.
  split; (intros [?|(h & ? & ?)]; [by left | right; by exists h]).
Qed.

Lemma candidates_length st s :
  length (candidates st s) ≤ S (length (query (embed (seed_title s)) 50 st)).
Proof.
  unfold candidates. etrans; [apply Set_from_length|].
  simpl. by rewrite length_fmap.
Qed.

(** The topic returned at index [i]: the candidates of seed [i] that
    were not assigned when the callback reached it. *)
Lemma cluster_lookup uuid w messages i s :
  seeds messages !! i = Some s →
  let st := store (ingest uuid w messages) in
  cluster uuid w messages !! i
  = Some (mkTopic (seed_title s)
            (filter (λ x, x ∉ assigned_at (topics st messages) i)
               (candidates st s))).
Proof.
  intros Hs st. rewrite cluster_unfold.
  erewrite assign_lookup by by apply topics_lookup.
  fold st. f_equal. unfold claim_topic. simpl.
  pose proof (claim_kept_filter
    (foldl (λ a t, (claim_topic a t).2) ∅ (take i (topics st messages)))
    (candidates st s) (candidates_NoDup st s)) as Hk.
  unfold assigned_at.
  destruct (claim _ (candidates st s)) as [kept a']. simpl in *.
  by rewrite Hk.
Qed.

Lemma cluster_length uuid w messages :
  length (cluster uuid w messages) = length (seeds messages).
Proof. by rewrite cluster_unfold, assign_length, topics_length. Qed.

Lemma cluster_lookup_inv uuid w messages i t :
  cluster uuid w messages !! i = Some t →
  ∃ s, seeds messages !! i = Some s.
Proof.
  intros Ht. apply lookup_lt_Some in Ht. rewrite cluster_length in Ht.
  by apply lookup_lt_is_Some_2 in Ht as [s ?]; exists s.
Qed.

(** An id assigned before index [i] is a candidate of an earlier seed. *)
Lemma assigned_at_earlier st messages i x :
  x ∈ assigned_at (topics st messages) i →
  ∃ j s', j < i ∧ seeds messages !! j = Some s' ∧ x ∈ candidates st s'.
Proof.
  rewrite assigned_at_candidates, elem_of_list_to_set, elem_of_concat.
  intros (j & l & Hj & Hx).
  rewrite list_lookup_fmap in Hj.
  destruct (take i (topics st messages) !! j) as [t|] eqn:Ht; [|done].
  injection Hj as <-.
  apply lookup_take_Some in Ht as [Ht Hlt].
  apply topics_lookup_inv in Ht as (s' & Hs' & ->).
  by exists j, s'.
Qed.

Lemma assigned_at_later st messages i j s' x :
  j < i → seeds messages !! j = Some s' → x ∈ candidates st s' →
  x ∈ assigned_at (topics st messages) i.
Proof.
  intros Hlt Hs' Hx.
  rewrite assigned_at_candidates, elem_of_list_to_set, elem_of_concat.
  exists j, (candidates st s'). split; [|done].
  rewrite list_lookup_fmap, lookup_take_lt by done.
  by erewrite topics_lookup.
Qed.

(** C1.  The topics [cluster] returns have pairwise disjoint id
    lists: the concatenation of all their [ids] holds no id twice, so
    no id is in two topics and none is twice in one. *)
Theorem cluster_disjoint uuid w messages :
  NoDup (concat (ids <$> cluster uuid w messages))
  ∧ pairwise_disjoint (cluster uuid w messages)
  ∧ Forall (λ t, NoDup (ids t)) (cluster uuid w messages).
Proof.
  pose proof (assign_NoDup ∅
    (topics (store (ingest uuid w messages)) messages)) as Hnd.
  rewrite <- cluster_unfold in Hnd.
  split_and!; [done | by apply NoDup_pairwise_disjoint |].
  apply Forall_lookup. intros i t Ht.
  destruct (cluster_lookup_inv _ _ _ _ _ Ht) as [s Hs].
  rewrite (cluster_lookup _ _ _ _ _ Hs) in Ht. injection Ht as <-.
  simpl. apply NoDup_filter, candidates_NoDup.
Qed.

(** C5.  The topic returned for seed [i] holds the candidates of that
    seed (the seed's id first, then the ids of the hits in the order
    [query] returned them, each once) that are not assigned yet, in
    candidate order; the ids assigned at that moment are exactly the
    members of the topics returned for seeds [0..i-1]; and the
    members of topic [i] are assigned when seed [i+1] is reached. *)
Theorem cluster_membership uuid w messages i s :
  seeds messages !! i = Some s →
  let st := store (ingest uuid w messages) in
  let out := cluster uuid w messages in
  let raw := seed_id s
             :: ((λ hit, Some (hit_id hit))
                   <$> query (embed (seed_title s)) 50 st) in
  ∃ t, out !! i = Some t
     ∧ head (candidates st s) = Some (seed_id s)
     ∧ NoDup (candidates st s)
     ∧ candidates st s `sublist_of` raw
     ∧ (∀ x, x ∈ raw ↔ x ∈ candidates st s)
     ∧ ids t = filter (λ x, x ∉ assigned_at (topics st messages) i)
                 (candidates st s)
     ∧ assigned_at (topics st messages) i
       = list_to_set (concat (ids <$> take i out))
     ∧ assigned_at (topics st messages) (S i)
       = assigned_at (topics st messages) i ∪ list_to_set (ids t).
Proof.
  intros Hs st out raw.
  pose proof (cluster_lookup uuid w messages i s Hs) as Ht. simpl in Ht.
  fold st out in Ht.
  eexists. split; [exact Ht|]. simpl.
  assert (assigned_at (topics st messages) i
          = list_to_set (concat (ids <$> take i out))) as Hprev.
  { unfold out. rewrite cluster_unfold. apply assigned_at_members. }
  split_and!.
  - apply candidates_head.
  - apply candidates_NoDup.
  - apply Set_from_sublist.
  - intros x. unfold candidates. by rewrite Set_from_elem.
  - done.
  - done.
  - rewrite (assigned_at_members _ (S i)).
    change (assign ∅ (topics st messages)) with out.
    rewrite (take_S_r _ _ _ Ht), fmap_app, concat_app, list_to_set_app_L.
    rewrite <- Hprev. simpl. set_solver.
Qed.

(** C6.  Self-claim priority: a seed whose own id is a candidate of no
    seed processed before it keeps its own id in its topic. *)
Theorem self_claim_priority uuid w messages i s :
  seeds messages !! i = Some s →
  (∀ j s', j < i → seeds messages !! j = Some s' →
           seed_id s ∉ candidates (store (ingest uuid w messages)) s') →
  ∃ t, cluster uuid w messages !! i = Some t ∧ seed_id s ∈ ids t.
Proof.
  intros Hs Hfirst.
  eexists. split; [by apply cluster_lookup|]. simpl.
  apply list_elem_of_filter. split.
  - intros (j & s' & Hlt & Hs' & Hx)%assigned_at_earlier.
    by apply (Hfirst j s').
  - apply candidates_elem. by left.
Qed.

(** C7.  [cluster] returns one topic per seed, in the order of the
    seeds and under the seed's title; a seed all of whose candidates
    belong to earlier seeds still gets its topic, with no id in it. *)
Theorem cluster_shape uuid w messages :
  let st := store (ingest uuid w messages) in
  length (cluster uuid w messages) = length (seeds messages)
  ∧ title <$> cluster uuid w messages = seed_title <$> seeds messages
  ∧ ∀ i s,
      seeds messages !! i = Some s →
      (∀ x, x ∈ candidates st s →
            ∃ j s', j < i ∧ seeds messages !! j = Some s'
                    ∧ x ∈ candidates st s') →
      cluster uuid w messages !! i = Some (mkTopic (seed_title s) []).
Proof.
  intros st. split_and!.
  - apply cluster_length.
  - rewrite cluster_unfold, assign_titles. unfold topics.
    rewrite <- list_fmap_compose. done.
  - intros i s Hs Hall.
    rewrite (cluster_lookup _ _ _ _ _ Hs). fold st. do 2 f_equal.
    apply filter_none. intros x Hx Hnot.
    destruct (Hall x Hx) as (j & s' & Hlt & Hs' & Hx').
    apply Hnot. by eapply assigned_at_later.
Qed.

(** C10.  If a query for 50 neighbours returns at most 50 hits, every
    topic [cluster] returns has at most 51 ids. *)
Theorem topic_size_bound uuid w messages :
  (∀ q st, length (query q 50 st) ≤ 50) →
  Forall (λ t, length (ids t) ≤ 51) (cluster uuid w messages).
Proof.
  intros Hq. apply Forall_lookup. intros i t Ht.
  destruct (cluster_lookup_inv _ _ _ _ _ Ht) as [s Hs].
  rewrite (cluster_lookup _ _ _ _ _ Hs) in Ht. injection Ht as <-.
  simpl. etrans; [apply length_filter|].
  etrans; [apply candidates_length|].
  specialize (Hq (embed (seed_title s)) (store (ingest uuid w messages))).
  lia.
Qed.

(** The store after ingestion depends on the UUIDs drawn, and on
    nothing else of their source. *)
Lemma ingest_fold_agree uuid1 uuid2 (l : list Message) st n1 n2 :
  (∀ k, k < length (filter needs_uuid l) → uuid1 (n1 + k) = uuid2 (n2 + k)) →
  store (foldl (ingest_msg uuid1) (mkWorld st n1) l)
  = store (foldl (ingest_msg uuid2) (mkWorld st n2) l).
Proof.
  revert st n1 n2. induction l as [|m l IH]; intros st n1 n2 Hu; [done|].
  simpl foldl. unfold ingest_msg at 2 4.
  destruct (usable_id (msg_id m)) as [k|] eqn:Hk; simpl.
  - apply IH. intros j Hj. apply Hu.
    rewrite filter_cons_False; [done|].
    unfold needs_uuid. by rewrite Hk.
  - rewrite filter_cons_True in Hu by done. simpl in Hu.
    assert (uuid1 n1 = uuid2 n2) as ->.
    { specialize (Hu 0). rewrite !Nat.add_0_r in Hu. apply Hu. lia. }
    apply IH. intros j Hj. specialize (Hu (S j)).
    rewrite !Nat.add_succ_r in Hu. apply Hu. lia.
Qed.

Lemma cluster_agree uuid1 uuid2 st n1 n2 messages :
  (∀ k, k < length (filter needs_uuid (relevant messages)) →
        uuid1 (n1 + k) = uuid2 (n2 + k)) →
  cluster uuid1 (mkWorld st n1) messages
  = cluster uuid2 (mkWorld st n2) messages.
Proof.
  intros Hu. rewrite !cluster_unfold. unfold ingest.
  by rewrite (ingest_fold_agree uuid1 uuid2 _ st n1 n2 Hu).
Qed.

(** When every non-tool message has an id of its own, no UUID is
    drawn and the topics do not depend on the source of UUIDs. *)
Lemma cluster_agree_identified uuid1 uuid2 st n1 n2 messages :
  Forall has_id (relevant messages) →
  cluster uuid1 (mkWorld st n1) messages
  = cluster uuid2 (mkWorld st n2) messages.
Proof.
  intros Hid. apply cluster_agree.
  rewrite filter_none; [simpl; lia|].
  intros m Hm Hneed. rewrite Forall_forall in Hid.
  destruct (Hid m Hm) as (k & Hk & Ht).
  unfold needs_uuid, usable_id in Hneed. rewrite Hk in Hneed.
  by rewrite decide_True in Hneed.
Qed.

(** C3, as the code has it.  Two runs on the same messages, with the
    same embedder and the same contents of the store at the start,
    return the same topics provided [randomUUID()] gives the same
    values in both, one for each non-tool message without an id of
    its own; when every non-tool message has an id, no value is asked
    of [randomUUID()]. *)
Theorem cluster_reproducible uuid1 uuid2 st n1 n2 messages :
  (∀ k, k < length (filter needs_uuid (relevant messages)) →
        uuid1 (n1 + k) = uuid2 (n2 + k)) →
  cluster uuid1 (mkWorld st n1) messages
  = cluster uuid2 (mkWorld st n2) messages
  ∧ (Forall has_id (relevant messages) →
     filter needs_uuid (relevant messages) = []).
Proof.
  intros Hu. split; [by apply cluster_agree|].
  intros Hid. apply filter_none.
  intros m Hm Hneed. rewrite Forall_forall in Hid.
  destruct (Hid m Hm) as (k & Hk & Ht).
  unfold needs_uuid, usable_id in Hneed. rewrite Hk in Hneed.
  by rewrite decide_True in Hneed.
Qed.

(** C8.  On the empty message list [cluster] returns the empty
    sequence of topics and leaves the store as it was; there is no
    seed; and [buildFlows] of no topic is no flow. *)
Theorem empty_input uuid w n :
  seeds [] = []
  ∧ cluster_run uuid w [] = ([], w)
  ∧ cluster uuid w [] = []
  ∧ buildFlows uuid n [] = []
  ∧ buildFlows uuid n (cluster uuid w []) = [].
Proof. by split_and!. Qed.



(** The ids of a store after ingestion, when every message ingested
    has an id of its own. *)
Lemma ingest_fold_stored uuid stored `{!VectorIndexLaws _ stored}
    (l : list Message) w k :
  Forall has_id l →
  k ∈ stored (store (foldl (ingest_msg uuid) w l)) →
  k ∈ stored (store w) ∨ ∃ m, m ∈ l ∧ msg_id m = Some k.
Proof.
  revert w. induction l as [|m l IH]; intros w Hid Hk; [by left|].
  apply Forall_cons in Hid as [(k0 & Hk0 & Ht) Hid].
  simpl in Hk. apply (IH _ Hid) in Hk as [Hk|(m' & Hm' & Hk)].
  - unfold ingest_msg, usable_id in Hk. rewrite Hk0 in Hk.
    rewrite decide_True in Hk by done. simpl in Hk.
    apply upsert_stored in Hk as [->|Hk]; [|by left].
    right. exists m. split; [by left | done].
  - right. exists m'. split; [by right | done].
Qed.

Lemma seeds_from_users messages s :
  s ∈ seeds messages →
  ∃ m, m ∈ relevant messages ∧ msg_role m = "user" ∧ s = seed_of m.
Proof.
  unfold seeds. intros Hs%subseteq_take.
  apply list_elem_of_filter in Hs as [_ Hs].
  apply list_elem_of_fmap in Hs as (m & -> & Hm).
  apply list_elem_of_filter in Hm as [Hrole Hm].
  exists m. split_and!; [|done..].
  apply list_elem_of_filter. split; [|done]. by rewrite Hrole.
Qed.

(** The coverage bound holds on a store that starts empty when every
    non-tool message has an id of its own. *)
Lemma coverage_identified uuid stored `{!VectorIndexLaws _ stored} w messages :
  stored (store w) = [] →
  Forall has_id (relevant messages) →
  total_ids (cluster uuid w messages) ≤ length (relevant messages).
Proof.
  intros Hfresh Hid. rewrite total_ids_concat.
  pose proof (assign_NoDup ∅
    (topics (store (ingest uuid w messages)) messages)) as Hnd.
  rewrite <- cluster_unfold in Hnd.
  rewrite <- (length_fmap msg_id (relevant messages)).
  apply submseteq_length, NoDup_submseteq; [done|].
  intros x Hx. rewrite cluster_unfold in Hx.
  apply assign_members_sub, elem_of_concat in Hx as (i & l & Hi & Hx).
  rewrite list_lookup_fmap in Hi.
  destruct (topics _ messages !! i) as [t|] eqn:Ht; [|done].
  injection Hi as <-.
  apply topics_lookup_inv in Ht as (s & Hs & ->). simpl in Hx.
  apply candidates_elem in Hx as [->|(hit & Hhit & ->)].
  - apply list_elem_of_lookup_2, seeds_from_users in Hs as (m & Hm & _ & ->).
    change (seed_id (seed_of m)) with (msg_id m).
    by apply list_elem_of_fmap_2.
  - apply query_stored in Hhit.
    apply (ingest_fold_stored uuid stored) in Hhit as [Hhit|(m & Hm & Hk)];
      [|by rewrite <- Hk; apply list_elem_of_fmap_2 | done].
    rewrite Hfresh in Hhit. by apply elem_of_nil in Hhit.
Qed.
End ClusterFacts.

(** ** The store after the specification: properties *)

Section MemStoreFacts.
Context {Vec Score : Type}.
Variable score : Vec → Vec → Score.
Variable leb : Score → Score → bool.

Local Abbreviation upsert := (MemStore.upsert (Vec := Vec)).
Local Abbreviation rank_insert := (MemStore.rank_insert leb).
Local Abbreviation rank := (MemStore.rank leb).
Local Abbreviation query := (MemStore.query score leb).
Local Abbreviation keys := (MemStore.keys (Vec := Vec)).
Local Abbreviation beats := (MemStore.beats leb).

Lemma MemStore_upsert_keys i v m s k :
  k ∈ keys (upsert i v m s) → k = i ∨ k ∈ keys s.
Proof.
  unfold MemStore.keys. induction s as [|r rest IH]; simpl.
  - rewrite list_elem_of_singleton. by left.
  - case_decide as Hr; rewrite !fmap_cons, !elem_of_cons; simpl.
    + intros [->|?]; [by left | right; by right].
    + intros [->|Hk]; [right; by left|].
      destruct (IH Hk) as [->|?]; [by left | right; by right].
Qed.

(** One record per id, whatever is upserted. *)
Lemma MemStore_upsert_NoDup i v m s :
  NoDup (keys s) → NoDup (keys (upsert i v m s)).
Proof.
  induction s as [|r rest IH].
  - intros _. apply NoDup_singleton.
  - change (keys (r :: rest)) with (MemStore.rec_id r :: keys rest).
    rewrite NoDup_cons. intros [Hr Hnd]. simpl. case_decide as Heq.
    + change (NoDup (i :: keys rest)). apply NoDup_cons. by subst i.
    + change (NoDup (MemStore.rec_id r :: keys (upsert i v m rest))).
      apply NoDup_cons. split; [|by apply IH].
      intros [Hri|Hin]%MemStore_upsert_keys; done.
Qed.

(** After [upsert(id, v1, m1)] and [upsert(id, v2, m2)] the store is
    the one [upsert(id, v2, m2)] alone gives. *)
Lemma MemStore_upsert_twice i v1 m1 v2 m2 s :
  upsert i v2 m2 (upsert i v1 m1 s) = upsert i v2 m2 s.
Proof.
  induction s as [|r rest IH]; simpl.
  - by rewrite decide_True.
  - case_decide as Hr; simpl.
    + by rewrite decide_True.
    + rewrite decide_False by done. by rewrite IH.
Qed.

Lemma rank_insert_perm h hs : rank_insert h hs ≡ₚ h :: hs.
Proof.
  induction hs as [|h' rest IH]; simpl; [done|].
  destruct (leb _ _); [done|].
  rewrite IH. apply Permutation_swap.
Qed.

Lemma rank_perm hs : rank hs ≡ₚ hs.
Proof.
  induction hs as [|h rest IH]; simpl; [done|].
  by rewrite rank_insert_perm, IH.
Qed.

Lemma MemStore_query_keys q n s hit :
  hit ∈ query q n s → hit_id hit ∈ keys s.
Proof.
  unfold MemStore.query, MemStore.keys. intros Hh%subseteq_take.
  rewrite rank_perm in Hh.
  apply list_elem_of_fmap in Hh as (r & -> & Hr). simpl.
  by apply list_elem_of_fmap_2.
Qed.

Lemma MemStore_query_length q n s : length (query q n s) ≤ n.
Proof. unfold MemStore.query. rewrite length_take. lia. Qed.

Lemma MemStore_query_length_store q n s : length (query q n s) ≤ length s.
Proof.
  unfold MemStore.query.
  rewrite length_take, (Permutation_length (rank_perm _)), length_fmap. lia.
Qed.

(** A query on the empty store finds nothing, and so does a query for
    no neighbour. *)
Lemma MemStore_query_empty q n : query q n MemStore.empty = [].
Proof. unfold MemStore.query. simpl. by rewrite take_nil. Qed.

Lemma MemStore_query_zero q s : query q 0 s = [].
Proof. done. Qed.

(** The hits come in descending order of score, when [leb] compares
    any two scores. *)

Lemma rank_insert_sorted h hs :
  (∀ a b, leb a b = false → leb b a = true) →
  Sorted beats hs → Sorted beats (rank_insert h hs).
Proof.
  intros Htotal. induction hs as [|h' rest IH]; intros Hs; simpl.
  - by repeat constructor.
  - destruct (leb (hit_score h') (hit_score h)) eqn:Hle.
    + constructor; [done|]. by constructor.
    + apply Sorted_inv in Hs as [Hs Hhd]. constructor; [by apply IH|].
      destruct rest as [|h'' rest']; simpl.
      * constructor. by apply Htotal.
      * destruct (leb (hit_score h'') (hit_score h)).
        -- constructor. by apply Htotal.
        -- constructor. by apply HdRel_inv in Hhd.
Qed.

Lemma MemStore_query_sorted q n s :
  (∀ a b, leb a b = false → leb b a = true) →
  Sorted beats (query q n s).
Proof.
  intros Htotal. unfold MemStore.query.
  generalize ((λ r, mkHit (MemStore.rec_id r) (score q (MemStore.rec_vec r))) <$> s).
  intros hs. assert (Sorted beats (rank hs)) as Hs.
  { induction hs as [|h rest IH]; simpl; [constructor|].
    by apply rank_insert_sorted. }
  revert n. induction Hs as [|h l Hl IH Hhd]; intros n.
  - rewrite take_nil. constructor.
  - destruct n as [|n]; simpl; [constructor|].
    constructor; [apply IH|].
    destruct Hhd; destruct n; simpl; by constructor.
Qed.

#[export] Instance MemStore_laws :
  VectorIndexLaws (MemStore.index score leb) keys.
Proof.
  split.
  - apply MemStore_upsert_keys.
  - apply MemStore_query_keys.
  - apply MemStore_query_length.
Qed.
End MemStoreFacts.

(** ** Worked runs *)

Import Sample.

(** *** One message without an id, on any embedder and any scores *)

Lemma claim_fresh l : NoDup l → (claim ∅ l).1 = l.
Proof.
  intros Hnd. rewrite claim_kept_filter by done.
  induction l as [|x l IH]; [done|].
  apply NoDup_cons in Hnd as [_ Hnd].
  rewrite filter_cons_True by set_solver. by rewrite IH.
Qed.

(** The store holds one record, under the UUID drawn for the message;
    the one seed has no id; the one hit is the record.  The topic holds
    two entries for the one message. *)
Lemma anonymous_run {Vec Score : Type} (score : Vec → Vec → Score)
    (leb : Score → Score → bool) {embedder : Embedder Vec} uuid n :
  cluster (index := MemStore.index score leb) uuid
    (mkWorld MemStore.empty n) anonymous_chat
  = [mkTopic "hi" [None; Some (uuid n)]].
Proof.
  rewrite cluster_unfold.
  change (topics _ anonymous_chat)
    with [mkTopic "hi" [None; Some (uuid n)]].
  simpl. unfold claim_topic. simpl ids.
  pose proof (claim_fresh [None; Some (uuid n)]) as Hc.
  destruct (claim ∅ [None; Some (uuid n)]) as [kept a]. simpl in *.
  rewrite Hc; [done|].
  apply NoDup_cons. split; [|apply NoDup_singleton].
  by intros ?%list_elem_of_singleton.
Qed.

(** *** The scenario of the specification *)

Example login_chat_run :
  seeds login_chat
  = [mkSeed (Some "1") "Fix login bug"; mkSeed (Some "3") "Fix login bug again"]
  ∧ cluster uuidA fresh login_chat
    = [mkTopic "Fix login bug" [Some "1"; Some "3"; Some "2"];
       mkTopic "Fix login bug again" []].
Proof. split; vm_compute; reflexivity. Qed.

(** Two user messages without an id: the first topic takes the absent
    id, the second finds it assigned. *)
Example two_anonymous_run :
  cluster uuidA fresh two_anonymous
  = [mkTopic "a" [None; Some "A-uuid"; Some "B-uuid"]; mkTopic "b" []].
Proof. vm_compute. reflexivity. Qed.


(** *** C2: the coverage bound on a message without an id *)

(** C2, at the failing input.  One user message without an id (or with
    the empty id) is one non-tool message, and [cluster] returns two ids
    for it: the absent (or empty) id of the seed and the UUID its record
    was stored under. *)
Theorem coverage_exceeded_without_id :
  length (relevant anonymous_chat) = 1
  ∧ cluster uuidA fresh anonymous_chat = [mkTopic "hi" [None; Some "A-uuid"]]
  ∧ total_ids (cluster uuidA fresh anonymous_chat) = 2
  ∧ length (relevant empty_id_chat) = 1
  ∧ cluster uuidA fresh empty_id_chat
    = [mkTopic "hi" [Some EmptyString; Some "A-uuid"]]
  ∧ total_ids (cluster uuidA fresh empty_id_chat) = 2.
Proof. split_and!; vm_compute; reflexivity. Qed.

(** *** C3: two runs that differ *)

(** C3 fails as stated: the same messages, the same embedder and an
    empty store in both runs, and the topics differ with the UUIDs that
    [randomUUID()] returned. *)
Lemma cluster_depends_on_uuids :
  cluster uuidA fresh anonymous_chat ≠ cluster uuidB fresh anonymous_chat.
Proof. vm_compute. intros [=]. Qed.

Lemma cluster_reproducible_witness :
  (∀ k, k < length (filter needs_uuid (relevant anonymous_chat)) →
        uuidA (5 + k) = (λ n, uuidA (n + 5)) (0 + k))
  ∧ cluster uuidA (mkWorld MemStore.empty 5) anonymous_chat
    = cluster (λ n, uuidA (n + 5)) (mkWorld MemStore.empty 0) anonymous_chat.
Proof.
  assert (∀ k, k < length (filter needs_uuid (relevant anonymous_chat)) →
               uuidA (5 + k) = (λ n, uuidA (n + 5)) (0 + k)) as Hu.
  { intros k _. simpl. f_equal. lia. }
  split; [exact Hu|].
  exact (proj1 (cluster_reproducible uuidA (λ n, uuidA (n + 5))
                  MemStore.empty 5 0 anonymous_chat Hu)).
Defined.

(** *** Witnesses *)

Lemma seeds_first_twelve_witness :
  12 < length (qualifying long_chat) ∧ length (seeds long_chat) = 12.
Proof.
  assert (12 < length (qualifying long_chat)) as Hlong by (vm_compute; lia).
  split; [exact Hlong|].
  exact (proj2 (proj2 (proj2 (seeds_first_twelve long_chat))) Hlong).
Defined.

Lemma cluster_membership_witness :
  seeds login_chat !! 1 = Some (mkSeed (Some "3") "Fix login bug again")
  ∧ ∃ t, cluster uuidA fresh login_chat !! 1 = Some t
         ∧ ids t
           = filter (λ x, x ∉ assigned_at
                       (topics (store (ingest uuidA fresh login_chat)) login_chat) 1)
               (candidates (store (ingest uuidA fresh login_chat))
                  (mkSeed (Some "3") "Fix login bug again")).
Proof.
  split; [reflexivity|].
  destruct (cluster_membership uuidA fresh login_chat 1
              (mkSeed (Some "3") "Fix login bug again") eq_refl)
    as (t & Ht & _ & _ & _ & _ & Hids & _).
  exists t. split; [exact Ht | exact Hids].
Defined.

Lemma self_claim_priority_witness :
  seeds mixed_chat !! 1 = Some (mkSeed None "b")
  ∧ ∃ t, cluster uuidA fresh mixed_chat !! 1 = Some t ∧ None ∈ ids t.
Proof.
  split; [reflexivity|].
  apply (self_claim_priority uuidA fresh mixed_chat 1 (mkSeed None "b") eq_refl).
  intros j s' Hlt Hs'. destruct j as [|j]; [|lia].
  injection Hs' as <-. vm_compute.
  intros Hin. repeat (apply elem_of_cons in Hin as [Hin|Hin]; [discriminate|]).
  by apply elem_of_nil in Hin.
Defined.

Lemma cluster_shape_witness :
  seeds same_id_chat !! 1 = Some (mkSeed (Some "1") "b")
  ∧ cluster uuidA fresh same_id_chat !! 1 = Some (mkTopic "b" []).
Proof.
  split; [reflexivity|].
  apply (proj2 (proj2 (cluster_shape uuidA fresh same_id_chat)) 1
           (mkSeed (Some "1") "b") eq_refl).
  intros x Hx. exists 0, (mkSeed (Some "1") "a").
  split; [lia|]. split; [reflexivity|].
  vm_compute in Hx. vm_compute. exact Hx.
Defined.

Lemma topic_size_bound_witness :
  (∀ q st, length (query (VectorIndex := Sample.index) q 50 st) ≤ 50)
  ∧ Forall (λ t, length (ids t) ≤ 51) (cluster uuidA fresh login_chat).
Proof.
  assert (∀ q st, length (query (VectorIndex := Sample.index) q 50 st) ≤ 50)
    as Hq by (intros q st; apply (MemStore_query_length dot Nat.leb)).
  split; [exact Hq|].
  exact (topic_size_bound uuidA fresh login_chat Hq).
Defined.


(** ** More on [cluster] *)

Lemma slice_to_length n s : String.length (slice_to n s) ≤ n.
Proof.
  unfold slice_to. revert s. induction n as [|n IH]; intros s; simpl.
  - by destruct s.
  - destruct s as [|c s]; simpl; [lia|]. specialize (IH s). lia.
Qed.

Lemma slice_to_chars n s c :
  c ∈ String.list_ascii_of_string (slice_to n s) →
  c ∈ String.list_ascii_of_string s.
Proof.
  unfold slice_to. revert s. induction n as [|n IH]; intros s; simpl.
  - destruct s; simpl; by intros ?%elem_of_nil.
  - destruct s as [|c' s]; simpl; [done|].
    rewrite !elem_of_cons. intros [->|Hc]; [by left | right; by apply IH].
Qed.

Lemma first_line_chars s :
  "010"%char ∉ String.list_ascii_of_string (first_line s).
Proof.
  induction s as [|c s IH]; simpl; [apply not_elem_of_nil|].
  destruct (Ascii.eqb c "010") eqn:Hc; simpl; [apply not_elem_of_nil|].
  rewrite elem_of_cons. intros [Heq|Hin]; [|done].
  subst c. by rewrite Ascii.eqb_refl in Hc.
Qed.

Lemma first_line_nonempty s :
  first_line s ≠ EmptyString ↔
  ∃ c rest, s = String c rest ∧ c ≠ "010"%char.
Proof.
  destruct s as [|c rest]; simpl.
  - split; [done | by intros (? & ? & ? & _)].
  - destruct (Ascii.eqb_spec c "010") as [->|Hc].
    + split; [done | by intros (? & ? & [= <- _] & ?)].
    + split; [by exists c, rest | done].
Qed.

Lemma title_of_empty m :
  title_of m = EmptyString ↔ first_line (text_of m) = EmptyString.
Proof.
  unfold title_of. by destruct (first_line (text_of m)).
Qed.

Lemma seeds_elem messages s :
  s ∈ seeds messages →
  ∃ m, m ∈ messages ∧ msg_role m = "user" ∧ s = seed_of m
       ∧ truthy (title_of m).
Proof.
  unfold seeds. intros Hs%subseteq_take.
  apply list_elem_of_filter in Hs as [Ht Hs].
  apply list_elem_of_fmap in Hs as (m & -> & Hm).
  apply list_elem_of_filter in Hm as [Hrole Hm].
  by exists m.
Qed.

(** X1.  Every seed comes from a user message whose text ([text], or
    [content] when [text] is absent) starts with a character other than
    a line feed; its title is not empty, has at most 80 characters and
    holds no line feed; and there are at most 12 seeds. *)
Theorem seeds_wellformed messages :
  length (seeds messages) ≤ 12
  ∧ Forall (λ s,
      (∃ m c rest, m ∈ messages ∧ msg_role m = "user" ∧ s = seed_of m
                   ∧ text_of m = String c rest ∧ c ≠ "010"%char)
      ∧ seed_title s ≠ EmptyString
      ∧ String.length (seed_title s) ≤ 80
      ∧ "010"%char ∉ String.list_ascii_of_string (seed_title s))
      (seeds messages).
Proof.
  split.
  - unfold seeds. rewrite length_take. lia.
  - apply Forall_forall. intros s (m & Hm & Hrole & -> & Ht)%seeds_elem.
    split_and!.
    + assert (first_line (text_of m) ≠ EmptyString) as Hl.
      { intros Hl%title_of_empty. done. }
      apply first_line_nonempty in Hl as (c & rest & Htext & Hc).
      by exists m, c, rest.
    + done.
    + apply slice_to_length.
    + intros Hin%slice_to_chars. by apply first_line_chars in Hin.
Qed.

(** A text field that is present wins over [content], also when it is
    the empty string: such a user message gives no seed. *)
Lemma empty_text_no_seed m :
  msg_text m = Some EmptyString → seeds [m] = [].
Proof.
  intros Ht. unfold seeds.
  destruct (decide (msg_role m = "user")) as [Hr|Hr].
  - rewrite filter_cons_True by done. simpl.
    rewrite filter_cons_False; [done|].
    unfold truthy, seed_of, title_of, text_of. simpl. rewrite Ht. simpl.
    by intros ?.
  - by rewrite filter_cons_False.
Qed.

Lemma relevant_idemp messages : relevant (relevant messages) = relevant messages.
Proof.
  unfold relevant. induction messages as [|m rest IH]; [done|].
  destruct (decide (msg_role m ≠ "tool")) as [Hr|Hr].
  - rewrite (filter_cons_True _ m rest) by done.
    rewrite filter_cons_True by done. by rewrite IH.
  - by rewrite filter_cons_False.
Qed.

Lemma users_relevant messages :
  filter (λ m, msg_role m = "user") (relevant messages)
  = filter (λ m, msg_role m = "user") messages.
Proof.
  unfold relevant. induction messages as [|m rest IH]; [done|].
  destruct (decide (msg_role m = "user")) as [Hu|Hu].
  - rewrite (filter_cons_True (λ m, msg_role m ≠ "tool")) by by rewrite Hu.
    rewrite !filter_cons_True by done. by rewrite IH.
  - rewrite (filter_cons_False (λ m, msg_role m = "user") m rest) by done.
    destruct (decide (msg_role m ≠ "tool")).
    + rewrite filter_cons_True by done. by rewrite filter_cons_False.
    + by rewrite filter_cons_False.
Qed.

Lemma seeds_relevant messages : seeds (relevant messages) = seeds messages.
Proof. unfold seeds. by rewrite users_relevant. Qed.

Lemma assign_fixed a ts :
  NoDup (concat (ids <$> ts)) →
  (∀ x, x ∈ concat (ids <$> ts) → x ∉ a) →
  assign a ts = ts.
Proof.
  revert a. induction ts as [|t rest IH]; intros a Hnd Ha; [done|].
  rewrite fmap_cons in Hnd, Ha. simpl in Hnd, Ha.
  apply NoDup_app in Hnd as (Ht & Hapart & Hrest).
  rewrite assign_cons. f_equal.
  - unfold claim_topic. pose proof (claim_kept_filter a (ids t) Ht) as Hk.
    destruct (claim a (ids t)) as [kept a']. simpl in *. subst kept.
    destruct t as [tt ti]. simpl in *. f_equal.
    induction ti as [|x ti IHt]; [done|].
    rewrite filter_cons_True by (apply Ha; by left).
    f_equal. apply NoDup_cons in Ht as [_ Ht]. apply IHt; [done| |].
    + intros y Hy. apply Hapart. by right.
    + intros y Hy. apply Ha. by right.
  - apply IH; [done|]. intros x Hx. rewrite claim_topic_assigned.
    intros [Hxa|Hxt%elem_of_list_to_set]%elem_of_union.
    + revert Hxa. apply Ha, elem_of_app. by right.
    + by apply (Hapart x).
Qed.

(** X2.  The claiming pass (lines 29-37) leaves the topics it returns
    alone when it is run on them again: it is idempotent. *)
Theorem assign_idempotent ts : assign ∅ (assign ∅ ts) = assign ∅ ts.
Proof.
  apply assign_fixed; [apply assign_NoDup|]. intros x _. set_solver.
Qed.

Section ClusterMore.
Context {Vec Score Store : Type}.
Context {embedder : Embedder Vec} {index : VectorIndex Vec Score Store}.
Implicit Types (uuid : nat → string) (w : World Store) (st : Store).
Implicit Types (messages : list Message) (s : Seed) (t : Topic).

(** X3.  An id is in the topic returned for seed [i] exactly when it is
    a candidate of seed [i] and of no seed before it: among the seeds
    that could take an id, the first one gets it. *)
Theorem first_seed_wins uuid w messages i s x :
  seeds messages !! i = Some s →
  let st := store (ingest uuid w messages) in
  (∃ t, cluster uuid w messages !! i = Some t ∧ x ∈ ids t)
  ↔ x ∈ candidates st s
    ∧ ∀ j s', j < i → seeds messages !! j = Some s' → x ∉ candidates st s'.
Proof.
  intros Hs st. rewrite (cluster_lookup _ _ _ _ _ Hs). fold st. split.
  - intros (t & [= <-] & Hx). simpl in Hx.
    apply list_elem_of_filter in Hx as [Hfree Hx]. split; [done|].
    intros j s' Hlt Hs' Hx'. apply Hfree. by eapply assigned_at_later.
  - intros [Hx Hfirst]. eexists. split; [done|]. simpl.
    apply list_elem_of_filter. split; [|done].
    intros (j & s' & Hlt & Hs' & Hx')%assigned_at_earlier.
    by apply (Hfirst j s').
Qed.

Lemma assign_members_all a ts x :
  x ∈ concat (ids <$> ts) → x ∉ a → x ∈ concat (ids <$> assign a ts).
Proof.
  revert a. induction ts as [|t rest IH]; intros a Hx Ha; [done|].
  rewrite assign_cons, fmap_cons. rewrite fmap_cons in Hx. simpl in *.
  apply elem_of_app.
  destruct (decide (x ∈ ids t)) as [Ht|Ht].
  - left. rewrite claim_topic_ids. by apply claim_kept_elem.
  - right. apply elem_of_app in Hx as [?|Hx]; [done|].
    apply IH; [done|]. rewrite claim_topic_assigned. set_solver.
Qed.

(** X4.  No candidate is lost: the ids of the topics returned are, as a
    set, the seeds' ids together with the ids of all hits of all
    queries. *)
Theorem no_candidate_lost uuid w messages x :
  let st := store (ingest uuid w messages) in
  x ∈ concat (ids <$> cluster uuid w messages)
  ↔ ∃ s, s ∈ seeds messages
         ∧ (x = seed_id s
            ∨ ∃ hit, hit ∈ query (embed (seed_title s)) 50 st
                     ∧ x = Some (hit_id hit)).
Proof.
  intros st. rewrite cluster_unfold. fold st. split.
  - intros Hx%assign_members_sub. apply elem_of_concat in Hx as (i & l & Hi & Hx).
    rewrite list_lookup_fmap in Hi.
    destruct (topics st messages !! i) as [t|] eqn:Ht; [|done].
    injection Hi as <-.
    apply topics_lookup_inv in Ht as (s & Hs & ->). simpl in Hx.
    exists s. split; [by eapply list_elem_of_lookup_2|].
    by apply candidates_elem.
  - intros (s & Hs & Hx). apply assign_members_all; [|set_solver].
    apply list_elem_of_lookup_1 in Hs as [i Hi].
    apply elem_of_concat. exists i, (candidates st s). split.
    + rewrite list_lookup_fmap. by erewrite topics_lookup.
    + by apply candidates_elem.
Qed.

(** X5.  Messages of role [tool] have no part in a run: [cluster]
    returns the same topics and leaves the same store and the same
    count of UUIDs when they are taken out of its input. *)
Theorem tool_messages_ignored uuid w messages :
  cluster_run uuid w (relevant messages) = cluster_run uuid w messages.
Proof.
  unfold cluster_run, ingest, topics.
  by rewrite relevant_idemp, seeds_relevant.
Qed.

Lemma ingest_fold_drawn uuid (l : list Message) w :
  drawn (foldl (ingest_msg uuid) w l)
  = drawn w + length (filter needs_uuid l).
Proof.
  revert w. induction l as [|m l IH]; intros w; simpl; [lia|].
  rewrite IH. unfold ingest_msg.
  destruct (usable_id (msg_id m)) as [k|] eqn:Hk; simpl.
  - rewrite filter_cons_False; [done|]. unfold needs_uuid. by rewrite Hk.
  - rewrite filter_cons_True by done. simpl. lia.
Qed.

(** X6.  A run calls [randomUUID()] once for each non-tool message
    whose id is absent or empty, and for no other message. *)
Theorem uuids_drawn uuid w messages :
  drawn (cluster_run uuid w messages).2
  = drawn w + length (filter needs_uuid (relevant messages)).
Proof. unfold cluster_run, ingest. simpl. apply ingest_fold_drawn. Qed.

(** X7.  [undefined] gets into a topic only through a seed: when every
    seed has an id, no topic holds [undefined]. *)
Theorem undefined_only_from_seeds uuid w messages :
  Forall (λ s, seed_id s ≠ None) (seeds messages) →
  Forall (λ t, None ∉ ids t) (cluster uuid w messages).
Proof.
  intros Hseeds. apply Forall_lookup. intros i t Ht Hin.
  destruct (cluster_lookup_inv _ _ _ _ _ Ht) as [s Hs].
  rewrite (cluster_lookup _ _ _ _ _ Hs) in Ht. injection Ht as <-.
  simpl in Hin. apply list_elem_of_filter in Hin as [_ Hin].
  apply candidates_elem in Hin as [Hin|(hit & _ & Hin)]; [|done].
  rewrite Forall_forall in Hseeds.
  apply (Hseeds s); [by eapply list_elem_of_lookup_2 | done].
Qed.

(** X8.  The coverage bound holds when the store starts without a
    record and every non-tool message has an id of its own: the topics
    hold at most as many ids as there are non-tool messages.  The store
    may be any that adds no id but the one upserted and returns only ids
    it holds. *)
Theorem coverage_bound_identified uuid stored `{!VectorIndexLaws _ stored}
    w messages :
  stored (store w) = [] →
  Forall has_id (relevant messages) →
  total_ids (cluster uuid w messages) ≤ length (relevant messages).
Proof. apply coverage_identified; done. Qed.

(** X9.  No message reaches the builders of two flows: of two topics
    that [cluster] returns, at most one has its ids pick a given
    message on line 21 of [src/index.ts]. *)
Theorem message_in_one_flow uuid w messages i j ti tj m :
  i ≠ j →
  cluster uuid w messages !! i = Some ti →
  cluster uuid w messages !! j = Some tj →
  m ∈ pick_messages (ids ti) messages →
  m ∉ pick_messages (ids tj) messages.
Proof.
  intros Hij Hi Hj [Hpi _]%list_elem_of_filter [Hpj _]%list_elem_of_filter.
  unfold picked in *. destruct (usable_id (msg_id m)) as [k|]; [|done].
  pose proof (assign_NoDup ∅
    (topics (store (ingest uuid w messages)) messages)) as Hnd.
  rewrite <- cluster_unfold in Hnd.
  by apply (NoDup_pairwise_disjoint _ Hnd i j ti tj (Some k)).
Qed.

(** X10.  A message whose id is absent or empty is stored and may have
    its UUID in a topic, but line 21 of [src/index.ts] never picks it:
    it reaches the builders of no flow.  A flow without a node gets no
    message, and the messages of a flow keep the order of the chat. *)
Theorem flow_msgs_selection flow messages :
  (∀ m, needs_uuid m → m ∉ pick_messages (first_msgIds flow) messages)
  ∧ (nodes flow = [] → flow_msgs flow messages = [])
  ∧ pick_messages (first_msgIds flow) messages `sublist_of` messages
  ∧ length (flow_msgs flow messages) ≤ length messages.
Proof.
  split_and!.
  - intros m Hneed [Hp _]%list_elem_of_filter.
    unfold picked in Hp. by rewrite Hneed in Hp.
  - intros Hn. unfold flow_msgs, pick_messages, first_msgIds. rewrite Hn.
    rewrite filter_none; [done|].
    intros m _. unfold picked.
    destruct (usable_id (msg_id m)); [apply not_elem_of_nil | by intros ?].
  - apply sublist_filter.
  - unfold flow_msgs. rewrite length_fmap. apply length_filter.
Qed.
End ClusterMore.

(** ** The readiness audit: properties *)

(** Case analysis on the answers of the repository: first the answers
    the statement names, then the conditions of the checks. *)
Ltac audit_cases :=
  repeat match goal with
  | |- context [Audit.searchForHardcodedSecrets ?r] =>
      destruct (Audit.searchForHardcodedSecrets r)
  | |- context [Audit.searchForCommittedSecrets ?r] =>
      destruct (Audit.searchForCommittedSecrets r)
  | |- context [Audit.handlesPII ?i] => destruct (Audit.handlesPII i)
  | |- context [Audit.searchCodebase ?r ["pii"; "gdpr"; "privacy"; "personal-data"]] =>
      destruct (Audit.searchCodebase r ["pii"; "gdpr"; "privacy"; "personal-data"])
  end;
  cbn [negb andb orb];
  repeat match goal with
  | |- context [if ?b then _ else _] =>
      lazymatch b with
      | true => fail
      | false => fail
      | _ => lazymatch type of b with bool => destruct b end
      end
  end.

Ltac audit_category :=
  cbv delta [Audit.auditIdentityAccessControl Audit.auditSecretsConfig
             Audit.auditDataSafety Audit.auditReliability
             Audit.auditObservability Audit.auditCICD Audit.auditSecurity
             Audit.auditTesting Audit.auditPerformance
             Audit.auditDocumentation] beta zeta;
  audit_cases; vm_compute; repeat split; try reflexivity; try lia.

Section AuditFacts.
Import Audit.
Variable repo : Repo.
Variable inputs : AuditInputs.

Lemma identityAccessControl_facts :
  let c := auditIdentityAccessControl repo in
  score c ≤ 5 ∧ maxScore c = 5
  ∧ criticalFindings c
    = if searchForHardcodedSecrets repo
      then ["✗ CRITICAL: Potential hardcoded credentials detected"] else [].
Proof. audit_category. Qed.

Lemma secretsConfig_facts :
  let c := auditSecretsConfig repo in
  score c ≤ 5 ∧ maxScore c = 5
  ∧ criticalFindings c
    = if searchForCommittedSecrets repo
      then ["✗ CRITICAL: Potential committed secrets found"] else [].
Proof. audit_category. Qed.

Lemma dataSafety_facts :
  let c := auditDataSafety repo inputs in
  score c ≤ 5 ∧ maxScore c = 5
  ∧ criticalFindings c
    = if handlesPII inputs
         && negb (searchCodebase repo ["pii"; "gdpr"; "privacy"; "personal-data"])
      then ["✗ CRITICAL: Handles PII but no protection patterns found"] else [].
Proof. audit_category. Qed.

Lemma reliability_facts :
  let c := auditReliability repo in
  score c ≤ 5 ∧ maxScore c = 5 ∧ criticalFindings c = [].
Proof. audit_category. Qed.

Lemma observability_facts :
  let c := auditObservability repo in
  score c ≤ 5 ∧ maxScore c = 5 ∧ criticalFindings c = [].
Proof. audit_category. Qed.

Lemma cicd_facts :
  let c := auditCICD repo in
  score c ≤ 5 ∧ maxScore c = 5 ∧ criticalFindings c = [].
Proof. audit_category. Qed.

Lemma security_facts :
  let c := auditSecurity repo in
  score c ≤ 5 ∧ maxScore c = 5 ∧ criticalFindings c = [].
Proof. audit_category. Qed.

Lemma testing_facts :
  let c := auditTesting repo in
  score c ≤ 5 ∧ maxScore c = 5 ∧ criticalFindings c = [].
Proof. audit_category. Qed.

Lemma performance_facts :
  let c := auditPerformance repo in
  score c ≤ 5 ∧ maxScore c = 5 ∧ criticalFindings c = [].
Proof. audit_category. Qed.

Lemma documentation_facts :
  let c := auditDocumentation repo in
  score c ≤ 5 ∧ maxScore c = 5 ∧ criticalFindings c = [].
Proof. audit_category. Qed.
End AuditFacts.

Section AuditResults.
Import Audit.

(** The three arrays after the [forEach]. *)
Lemma blockers_fold acc (l : list (string * CategoryScore)) :
  critical (foldl blockersOf acc l)
  = critical acc ++ concat ((λ e, criticalFindings e.2) <$> l)
  ∧ publicBlockers (foldl blockersOf acc l)
    = publicBlockers acc
      ++ ((λ e : string * CategoryScore,
             e.1 +:+ ": Score " +:+ pretty (score e.2)
             +:+ "/5 - Needs significant improvement")
            <$> filter (λ e : string * CategoryScore, score e.2 ≤ 2) l)
  ∧ improvements (foldl blockersOf acc l)
    = improvements acc
      ++ ((λ e : string * CategoryScore,
             "Improve " +:+ e.1 +:+ ": " +:+ reasoning e.2)
            <$> filter (λ e : string * CategoryScore, score e.2 < 4) l).
Proof.
  revert acc. induction l as [|[category data] l IH]; intros acc.
  - simpl. by rewrite !app_nil_r.
  - change (foldl blockersOf acc ((category, data) :: l))
      with (foldl blockersOf (blockersOf acc (category, data)) l).
    destruct (IH (blockersOf acc (category, data))) as (-> & -> & ->).
    rewrite !filter_cons, fmap_cons. simpl concat. unfold blockersOf. simpl.
    destruct (Nat.leb_spec (score data) 2), (Nat.ltb_spec (score data) 4);
      repeat case_decide; try lia; simpl;
      rewrite <- ?app_assoc; done.
Qed.

Lemma sum_scores (l : list CategoryScore) n :
  foldl (λ sum cat, sum + score cat) n l = n + sum_list (score <$> l).
Proof.
  revert n. induction l as [|c l IH]; intros n; [simpl; lia|].
  rewrite fmap_cons. simpl. rewrite IH. lia.
Qed.

(** A category of score at most 2 costs three of the five points. *)
Lemma weak_categories_cost (l : list CategoryScore) :
  Forall (λ c, score c ≤ 5) l →
  sum_list (score <$> l) + 3 * length (filter (λ c, score c ≤ 2) l)
  ≤ 5 * length l.
Proof.
  induction 1 as [|c l Hc _ IH]; [done|].
  rewrite filter_cons, fmap_cons. simpl sum_list.
  case_decide; simpl length; lia.
Qed.

(** What [generateBlockersAndImprovements] writes and what it keeps. *)
Lemma blockers_fields inputs results :
  let r := generateBlockersAndImprovements inputs results in
  categories r = categories results
  ∧ totalScore r = totalScore results
  ∧ resultsMaxScore r = resultsMaxScore results
  ∧ readinessLevel r = readinessLevel results
  ∧ runtimeCheck r = runtimeCheck results
  ∧ criticalBlockers r
    = concat (criticalFindings <$> values (categories results))
      ++ (if handlesPII inputs && (score (dataSafety (categories results)) <? 4)
          then ["CRITICAL: Handles PII but data safety score is low"] else [])
      ++ (if handlesPayments inputs && (score (security (categories results)) <? 4)
          then ["CRITICAL: Handles payments but security score is low"] else [])
  ∧ publicLaunchBlockers r
    = ((λ e : string * CategoryScore,
          e.1 +:+ ": Score " +:+ pretty (score e.2)
          +:+ "/5 - Needs significant improvement")
         <$> filter (λ e : string * CategoryScore, score e.2 ≤ 2)
               (entries (categories results)))
  ∧ topImprovements r
    = take 5
        ((λ e : string * CategoryScore,
            "Improve " +:+ e.1 +:+ ": " +:+ reasoning e.2)
           <$> filter (λ e : string * CategoryScore, score e.2 < 4)
                 (entries (categories results))).
Proof.
  intros r. unfold r, generateBlockersAndImprovements.
  destruct (blockers_fold (mkBlockers [] [] []) (entries (categories results)))
    as (-> & -> & ->).
  cbn [categories totalScore resultsMaxScore readinessLevel runtimeCheck
       criticalBlockers publicLaunchBlockers topImprovements
       critical publicBlockers improvements app].
  split_and!; try done.
  unfold values. rewrite <- list_fmap_compose.
  destruct (handlesPII inputs && _), (handlesPayments inputs && _);
    rewrite ?app_nil_r, <- ?app_assoc; reflexivity.
Qed.

(** What [generateExecutiveSummary] writes and what it keeps. *)
Lemma summary_fields results :
  let r := generateExecutiveSummary results in
  categories r = categories results
  ∧ totalScore r = totalScore results
  ∧ resultsMaxScore r = resultsMaxScore results
  ∧ readinessLevel r = readinessLevel results
  ∧ runtimeCheck r = runtimeCheck results
  ∧ criticalBlockers r = criticalBlockers results
  ∧ publicLaunchBlockers r = publicLaunchBlockers results
  ∧ topImprovements r = topImprovements results.
Proof. by split_and!. Qed.

Variable repo : Repo.
Variable inputs : AuditInputs.

Lemma audit_shape :
  ∃ rc,
    audit repo inputs
    = generateExecutiveSummary
        (generateBlockersAndImprovements inputs
           (classifyReadiness
              (mkResults
                 (mkCategories (auditIdentityAccessControl repo)
                    (auditSecretsConfig repo) (auditDataSafety repo inputs)
                    (auditReliability repo) (auditObservability repo)
                    (auditCICD repo) (auditSecurity repo) (auditTesting repo)
                    (auditPerformance repo) (auditDocumentation repo))
                 rc
                 (foldl (λ sum cat, sum + score cat) 0
                    (values
                       (mkCategories (auditIdentityAccessControl repo)
                          (auditSecretsConfig repo) (auditDataSafety repo inputs)
                          (auditReliability repo) (auditObservability repo)
                          (auditCICD repo) (auditSecurity repo)
                          (auditTesting repo) (auditPerformance repo)
                          (auditDocumentation repo))))
                 50 EmptyString [] [] [] (mkSummary false false [] []))))
    ∧ rc = match deploymentUrl inputs with
           | Some url =>
               if decide (truthy url) then Some (performRuntimeCheck url)
               else None
           | None => None
           end.
Proof.
  unfold audit. destruct (deploymentUrl inputs) as [url|];
    [destruct (decide (truthy url))|]; by eexists.
Qed.

Lemma audit_fields :
  let r := audit repo inputs in
  categories r
  = mkCategories (auditIdentityAccessControl repo) (auditSecretsConfig repo)
      (auditDataSafety repo inputs) (auditReliability repo)
      (auditObservability repo) (auditCICD repo) (auditSecurity repo)
      (auditTesting repo) (auditPerformance repo) (auditDocumentation repo)
  ∧ totalScore r = sum_list (score <$> values (categories r))
  ∧ resultsMaxScore r = 50
  ∧ readinessLevel r = readinessOf (totalScore r)
  ∧ runtimeCheck r
    = match deploymentUrl inputs with
      | Some url =>
          if decide (truthy url) then Some (performRuntimeCheck url) else None
      | None => None
      end.
Proof.
  intros r. destruct audit_shape as (rc & Hr & ->). unfold r. rewrite Hr.
  match goal with
  | |- context [generateBlockersAndImprovements inputs ?x] =>
      destruct (summary_fields (generateBlockersAndImprovements inputs x))
        as (-> & -> & -> & -> & -> & _);
      destruct (blockers_fields inputs x) as (-> & -> & -> & -> & -> & _)
  end.
  cbn [classifyReadiness categories totalScore resultsMaxScore readinessLevel
       runtimeCheck].
  rewrite sum_scores. by split_and!.
Qed.

Lemma audit_values :
  Forall (λ c, score c ≤ 5 ∧ maxScore c = 5)
    (values (categories (audit repo inputs))).
Proof.
  destruct audit_fields as (-> & _).
  pose proof (identityAccessControl_facts repo) as (? & ? & _).
  pose proof (secretsConfig_facts repo) as (? & ? & _).
  pose proof (dataSafety_facts repo inputs) as (? & ? & _).
  pose proof (reliability_facts repo) as (? & ? & _).
  pose proof (observability_facts repo) as (? & ? & _).
  pose proof (cicd_facts repo) as (? & ? & _).
  pose proof (security_facts repo) as (? & ? & _).
  pose proof (testing_facts repo) as (? & ? & _).
  pose proof (performance_facts repo) as (? & ? & _).
  pose proof (documentation_facts repo) as (? & ? & _).
  unfold values, entries. cbn [fmap list_fmap snd
    identityAccessControl secretsConfig dataSafety reliability observability
    cicd security testing performance documentation].
  repeat (apply Forall_cons; split; [done|]). apply Forall_nil_2.
Qed.

Lemma audit_blockers :
  let r := audit repo inputs in
  criticalBlockers r
  = concat (criticalFindings <$> values (categories r))
    ++ (if handlesPII inputs && (score (dataSafety (categories r)) <? 4)
        then ["CRITICAL: Handles PII but data safety score is low"] else [])
    ++ (if handlesPayments inputs && (score (security (categories r)) <? 4)
        then ["CRITICAL: Handles payments but security score is low"] else [])
  ∧ publicLaunchBlockers r
    = ((λ e : string * CategoryScore,
          e.1 +:+ ": Score " +:+ pretty (score e.2)
          +:+ "/5 - Needs significant improvement")
         <$> filter (λ e : string * CategoryScore, score e.2 ≤ 2)
               (entries (categories r)))
  ∧ topImprovements r
    = take 5
        ((λ e : string * CategoryScore,
            "Improve " +:+ e.1 +:+ ": " +:+ reasoning e.2)
           <$> filter (λ e : string * CategoryScore, score e.2 < 4)
                 (entries (categories r))).
Proof.
  intros r. destruct audit_shape as (rc & Hr & _). unfold r. rewrite Hr.
  match goal with
  | |- context [generateBlockersAndImprovements inputs ?x] =>
      destruct (summary_fields (generateBlockersAndImprovements inputs x))
        as (-> & _ & _ & _ & _ & -> & -> & ->);
      destruct (blockers_fields inputs x) as (-> & _ & _ & _ & _ & -> & -> & ->)
  end.
  done.
Qed.
End AuditResults.

Section AuditVerdicts.
Import Audit.
Variable repo : Repo.
Variable inputs : AuditInputs.

Lemma flag_app_nil (b : bool) (x : string) l :
  (if b then [x] else []) ++ l = [] ↔ b = false ∧ l = [].
Proof. destruct b; simpl; naive_solver. Qed.

Lemma flag_nil (b : bool) (x : string) :
  (if b then [x] else []) = [] ↔ b = false.
Proof. destruct b; simpl; naive_solver. Qed.

Lemma readinessOf_beta total :
  readinessOf total = "Public Beta Ready" ↔ 43 ≤ total.
Proof.
  unfold readinessOf.
  destruct (Nat.leb_spec 43 total); [done|].
  destruct (Nat.leb_spec 36 total); [split; [done|lia]|].
  destruct (Nat.leb_spec 26 total); (split; [done|lia]).
Qed.

Lemma audit_summary :
  let r := audit repo inputs in
  let weak :=
    (λ e : string * CategoryScore,
       e.1 +:+ " (score: " +:+ pretty (score e.2) +:+ "/5)")
      <$> filter (λ e : string * CategoryScore, score e.2 ≤ 2)
            (entries (categories r)) in
  let concerns :=
    criticalBlockers r
    ++ (if score (security (categories r)) <? 3
        then ["Low security hardening score"] else [])
    ++ (if score (identityAccessControl (categories r)) <? 3
        then ["Weak identity & access control"] else []) in
  executiveSummary r
  = mkSummary
      ((30 <=? totalScore r) && (length (criticalBlockers r) =? 0))
      ((43 <=? totalScore r) && (length (criticalBlockers r) =? 0)
       && (4 <=? score (security (categories r)))
       && (4 <=? score (dataSafety (categories r))))
      (if 0 <? length weak then weak
       else ["System appears relatively stable, but stress testing recommended"])
      (if length concerns =? 0
       then concerns
            ++ ["No major security concerns identified, but thorough security audit recommended"]
       else concerns).
Proof.
  intros r. destruct (audit_shape repo inputs) as (rc & Hr & _).
  unfold r. rewrite Hr. reflexivity.
Qed.

(** X11.  Every category scores between 0 and 5 out of 5, the total is
    their sum and is at most 50, the maximum recorded; the readiness
    level is the one of the four levels that the thresholds 43, 36 and
    26 give for the total. *)
Theorem audit_scores_bounded :
  let r := audit repo inputs in
  Forall (λ c, score c ≤ 5 ∧ maxScore c = 5) (values (categories r))
  ∧ totalScore r = sum_list (score <$> values (categories r))
  ∧ totalScore r ≤ resultsMaxScore r
  ∧ resultsMaxScore r = 50
  ∧ readinessLevel r = readinessOf (totalScore r)
  ∧ readinessLevel r
    ∈ ["Public Beta Ready"; "Employee Pilot Ready (with conditions)";
       "Dev Preview"; "Prototype"].
Proof.
  intros r. pose proof (audit_values repo inputs) as Hv. fold r in Hv.
  destruct (audit_fields repo inputs) as (_ & Htotal & Hmax & Hlevel & _).
  fold r in Htotal, Hmax, Hlevel.
  split_and!; [done..| |done|done|].
  - rewrite Htotal, Hmax.
    pose proof (weak_categories_cost (values (categories r))) as Hcost.
    assert (length (values (categories r)) = 10) as Hlen by done.
    rewrite Hlen in Hcost. etrans; [|apply Hcost]; [lia|].
    eapply Forall_impl; [exact Hv|]. by intros c [? _].
  - rewrite Hlevel. unfold readinessOf.
    destruct (43 <=? totalScore r); [by left|].
    destruct (36 <=? totalScore r); [by right; left|].
    destruct (26 <=? totalScore r); [by do 2 right; left | by do 3 right; left].
Qed.

Lemma audit_critical_findings :
  let r := audit repo inputs in
  concat (criticalFindings <$> values (categories r))
  = (if searchForHardcodedSecrets repo
     then ["✗ CRITICAL: Potential hardcoded credentials detected"] else [])
    ++ (if searchForCommittedSecrets repo
        then ["✗ CRITICAL: Potential committed secrets found"] else [])
    ++ (if handlesPII inputs
           && negb (searchCodebase repo ["pii"; "gdpr"; "privacy"; "personal-data"])
        then ["✗ CRITICAL: Handles PII but no protection patterns found"]
        else []).
Proof.
  intros r. destruct (audit_fields repo inputs) as (Hc & _). fold r in Hc.
  rewrite Hc. unfold values, entries.
  cbn [fmap list_fmap snd concat
    identityAccessControl secretsConfig dataSafety reliability observability
    cicd security testing performance documentation].
  destruct (identityAccessControl_facts repo) as (_ & _ & ->).
  destruct (secretsConfig_facts repo) as (_ & _ & ->).
  destruct (dataSafety_facts repo inputs) as (_ & _ & ->).
  destruct (reliability_facts repo) as (_ & _ & ->).
  destruct (observability_facts repo) as (_ & _ & ->).
  destruct (cicd_facts repo) as (_ & _ & ->).
  destruct (security_facts repo) as (_ & _ & ->).
  destruct (testing_facts repo) as (_ & _ & ->).
  destruct (performance_facts repo) as (_ & _ & ->).
  destruct (documentation_facts repo) as (_ & _ & ->).
  by rewrite !app_nil_r.
Qed.

Lemma critical_blockers_list :
  let r := audit repo inputs in
  criticalBlockers r
  = (if searchForHardcodedSecrets repo
     then ["✗ CRITICAL: Potential hardcoded credentials detected"] else [])
    ++ (if searchForCommittedSecrets repo
        then ["✗ CRITICAL: Potential committed secrets found"] else [])
    ++ (if handlesPII inputs
           && negb (searchCodebase repo ["pii"; "gdpr"; "privacy"; "personal-data"])
        then ["✗ CRITICAL: Handles PII but no protection patterns found"]
        else [])
    ++ (if handlesPII inputs && (score (dataSafety (categories r)) <? 4)
        then ["CRITICAL: Handles PII but data safety score is low"] else [])
    ++ (if handlesPayments inputs && (score (security (categories r)) <? 4)
        then ["CRITICAL: Handles payments but security score is low"] else []).
Proof.
  intros r. destruct (audit_blockers repo inputs) as (Hcrit & _).
  fold r in Hcrit. rewrite Hcrit.
  pose proof (audit_critical_findings) as Hf. fold r in Hf.
  by rewrite Hf, <- !app_assoc.
Qed.

Lemma critical_blockers_none :
  let r := audit repo inputs in
  criticalBlockers r = [] ↔
    searchForHardcodedSecrets repo = false
    ∧ searchForCommittedSecrets repo = false
    ∧ (handlesPII inputs = true →
       searchCodebase repo ["pii"; "gdpr"; "privacy"; "personal-data"] = true
       ∧ 4 ≤ score (dataSafety (categories r)))
    ∧ (handlesPayments inputs = true →
       4 ≤ score (security (categories r))).
Proof.
  intros r. pose proof critical_blockers_list as Hl. cbv zeta in Hl.
  fold r in Hl. rewrite Hl, !flag_app_nil, flag_nil.
  rewrite !andb_false_iff, negb_false_iff, !Nat.ltb_ge.
  generalize (score (dataSafety (categories r))).
  generalize (score (security (categories r))).
  intros sec dat.
  destruct (searchForHardcodedSecrets repo),
    (searchForCommittedSecrets repo), (handlesPII inputs),
    (handlesPayments inputs),
    (searchCodebase repo ["pii"; "gdpr"; "privacy"; "personal-data"]);
    intuition (try congruence; try lia).
Qed.

(** X12.  The critical blockers of an audit are, in this order: the
    finding of hardcoded credentials, the finding of committed secrets,
    the finding that PII is handled without protection patterns, the
    blocker that PII is handled with a data safety score under 4, and
    the blocker that payments are handled with a security score under
    4, each present exactly under its condition; the other seven
    categories never give one.  So there is no critical blocker exactly
    when no hardcoded and no committed secret was found, a repository
    that handles PII shows protection patterns and scores at least 4 on
    data safety, and one that handles payments scores at least 4 on
    security. *)
Theorem audit_critical_blockers :
  let r := audit repo inputs in
  criticalBlockers r
  = (if searchForHardcodedSecrets repo
     then ["✗ CRITICAL: Potential hardcoded credentials detected"] else [])
    ++ (if searchForCommittedSecrets repo
        then ["✗ CRITICAL: Potential committed secrets found"] else [])
    ++ (if handlesPII inputs
           && negb (searchCodebase repo ["pii"; "gdpr"; "privacy"; "personal-data"])
        then ["✗ CRITICAL: Handles PII but no protection patterns found"]
        else [])
    ++ (if handlesPII inputs && (score (dataSafety (categories r)) <? 4)
        then ["CRITICAL: Handles PII but data safety score is low"] else [])
    ++ (if handlesPayments inputs && (score (security (categories r)) <? 4)
        then ["CRITICAL: Handles payments but security score is low"] else [])
  ∧ (criticalBlockers r = [] ↔
       searchForHardcodedSecrets repo = false
       ∧ searchForCommittedSecrets repo = false
       ∧ (handlesPII inputs = true →
          searchCodebase repo ["pii"; "gdpr"; "privacy"; "personal-data"] = true
          ∧ 4 ≤ score (dataSafety (categories r)))
       ∧ (handlesPayments inputs = true →
          4 ≤ score (security (categories r)))).
Proof.
  intros r. split.
  - apply critical_blockers_list.
  - apply critical_blockers_none.
Qed.

(** X13.  A repository that the summary calls safe for customers is
    also called safe for employees and is rated Public Beta Ready; it
    scores at least 4 on security and on data safety, and no hardcoded
    and no committed secret was found in it.  A repository called safe
    for employees has a total of at least 30, no secret was found in
    it, and if it handles PII it shows protection patterns and scores
    at least 4 on data safety, and if it handles payments it scores at
    least 4 on security. *)
Theorem audit_verdicts :
  let r := audit repo inputs in
  let s := executiveSummary r in
  (safeForCustomers s = true →
     safeForEmployees s = true
     ∧ readinessLevel r = "Public Beta Ready"
     ∧ 4 ≤ score (security (categories r))
     ∧ 4 ≤ score (dataSafety (categories r))
     ∧ searchForHardcodedSecrets repo = false
     ∧ searchForCommittedSecrets repo = false)
  ∧ (safeForEmployees s = true →
       30 ≤ totalScore r
       ∧ searchForHardcodedSecrets repo = false
       ∧ searchForCommittedSecrets repo = false
       ∧ (handlesPII inputs = true →
          searchCodebase repo ["pii"; "gdpr"; "privacy"; "personal-data"] = true
          ∧ 4 ≤ score (dataSafety (categories r)))
       ∧ (handlesPayments inputs = true →
          4 ≤ score (security (categories r)))).
Proof.
  intros r s. unfold s. pose proof audit_summary as Hs. fold r in Hs.
  cbv zeta in Hs. rewrite Hs. cbn [safeForEmployees safeForCustomers].
  destruct (audit_fields repo inputs) as (_ & _ & _ & Hlevel & _).
  fold r in Hlevel. rewrite Hlevel, readinessOf_beta.
  pose proof critical_blockers_none as Hnone. cbv zeta in Hnone.
  fold r in Hnone. clearbody r.
  rewrite !andb_true_iff, !Nat.leb_le, Nat.eqb_eq, length_zero_iff_nil.
  rewrite Hnone. clear Hnone Hs Hlevel.
  generalize (score (dataSafety (categories r))).
  generalize (score (security (categories r))).
  generalize (totalScore r). intros total sec dat.
  split; intuition lia.
Qed.

Lemma public_blockers_count :
  let r := audit repo inputs in
  length (publicLaunchBlockers r)
  = length (filter (λ c, score c ≤ 2) (values (categories r))).
Proof.
  intros r. destruct (audit_blockers repo inputs) as (_ & Hpub & _).
  fold r in Hpub. rewrite Hpub, length_fmap. unfold values. clear Hpub.
  induction (entries (categories r)) as [|[n c] l IH]; [done|].
  rewrite fmap_cons, !filter_cons. cbn [fst snd].
  destruct (decide (score c ≤ 2)); cbn [length]; by rewrite IH.
Qed.

(** X14.  The report never shows an empty list under "what would break
    first" or under the security concerns, and at most five
    improvements.  There is one public launch blocker for each category
    that scores 2 or less; with none, "what would break first" is the
    one sentence that the system appears stable, and otherwise it lists
    as many categories as there are public launch blockers.  Every
    critical blocker is among the security concerns. *)
Theorem audit_sections :
  let r := audit repo inputs in
  let s := executiveSummary r in
  wouldBreakFirst s ≠ []
  ∧ securityConcerns s ≠ []
  ∧ length (topImprovements r) ≤ 5
  ∧ length (publicLaunchBlockers r)
    = length (filter (λ c, score c ≤ 2) (values (categories r)))
  ∧ (publicLaunchBlockers r = [] →
     wouldBreakFirst s
     = ["System appears relatively stable, but stress testing recommended"])
  ∧ (publicLaunchBlockers r ≠ [] →
     length (wouldBreakFirst s) = length (publicLaunchBlockers r))
  ∧ (∀ b, b ∈ criticalBlockers r → b ∈ securityConcerns s).
Proof.
  intros r s. unfold s. pose proof audit_summary as Hs. fold r in Hs.
  cbv zeta in Hs. rewrite Hs. cbn [wouldBreakFirst securityConcerns]. clear Hs.
  destruct (audit_blockers repo inputs) as (_ & Hpub & Htop).
  fold r in Hpub, Htop. rewrite Hpub, Htop.
  set (weak := filter (λ e : string * CategoryScore, score e.2 ≤ 2)
                 (entries (categories r))).
  rewrite !length_fmap.
  split_and!.
  - destruct weak; simpl; done.
  - match goal with |- (if length ?l =? 0 then _ else _) ≠ [] =>
      destruct l; simpl; done end.
  - rewrite length_take. lia.
  - pose proof public_blockers_count as Hc. cbv zeta in Hc. fold r in Hc.
    by rewrite Hpub, length_fmap in Hc.
  - intros Hnil%fmap_nil_inv. by rewrite Hnil.
  - intros Hne. destruct weak; [done|]. simpl. by rewrite !length_fmap.
  - intros b Hb.
    match goal with |- b ∈ (if length ?l =? 0 then _ else _) =>
      assert (b ∈ l) by (apply elem_of_app; by left);
      destruct (length l =? 0); [apply elem_of_app; by left | done] end.
Qed.

(** X15.  A repository rated Public Beta Ready has at most two public
    launch blockers: a category that scores 2 or less costs three of
    the 50 points, and the rating needs 43. *)
Theorem beta_ready_blockers :
  let r := audit repo inputs in
  readinessLevel r = "Public Beta Ready" →
  43 ≤ totalScore r ∧ length (publicLaunchBlockers r) ≤ 2.
Proof.
  intros r Hlevel.
  destruct (audit_fields repo inputs) as (_ & Htotal & _ & Hl & _).
  fold r in Htotal, Hl. rewrite Hl, readinessOf_beta in Hlevel.
  split; [done|].
  pose proof public_blockers_count as Hpub. cbv zeta in Hpub. fold r in Hpub.
  rewrite Hpub.
  pose proof (weak_categories_cost (values (categories r))) as Hcost.
  assert (length (values (categories r)) = 10) as Hlen by done.
  rewrite Hlen in Hcost. rewrite Htotal in Hlevel.
  enough (sum_list (score <$> values (categories r))
          + 3 * length (filter (λ c, score c ≤ 2) (values (categories r)))
          ≤ 50) by lia.
  apply Hcost. eapply Forall_impl; [apply (audit_values repo inputs)|].
  by intros c [? _].
Qed.
End AuditVerdicts.

Section AuditInputs.
Import Audit.

(** X16.  Of its inputs the audit reads [handlesPII], [handlesPayments]
    and [deploymentUrl] only, and the deployment URL decides nothing
    but the presence of the placeholder runtime check: two runs on the
    same repository that agree on the first two give the same scores,
    level, blockers, improvements and summary, whatever the audience,
    the secrets flag and the URL. *)
Theorem audit_reads_two_flags repo i1 i2 :
  handlesPII i1 = handlesPII i2 →
  handlesPayments i1 = handlesPayments i2 →
  let r1 := audit repo i1 in
  let r2 := audit repo i2 in
  categories r1 = categories r2
  ∧ totalScore r1 = totalScore r2
  ∧ readinessLevel r1 = readinessLevel r2
  ∧ criticalBlockers r1 = criticalBlockers r2
  ∧ publicLaunchBlockers r1 = publicLaunchBlockers r2
  ∧ topImprovements r1 = topImprovements r2
  ∧ executiveSummary r1 = executiveSummary r2
  ∧ exitCode r1 = exitCode r2
  ∧ (runtimeCheck r1 = None ∨ ∃ url,
       deploymentUrl i1 = Some url
       ∧ runtimeCheck r1
         = Some (mkRuntimeCheck None None (runtimeFindings (performRuntimeCheck url)))).
Proof.
  intros Hpii Hpay r1 r2.
  destruct (audit_fields repo i1) as (Hcats1 & Htotal1 & _ & Hlevel1 & Hrc).
  destruct (audit_fields repo i2) as (Hcats2 & Htotal2 & _ & Hlevel2 & _).
  fold r1 in Hcats1, Htotal1, Hlevel1, Hrc.
  fold r2 in Hcats2, Htotal2, Hlevel2.
  assert (auditDataSafety repo i1 = auditDataSafety repo i2) as Hdata.
  { unfold auditDataSafety. cbv zeta. by rewrite Hpii. }
  assert (categories r1 = categories r2) as Hcats.
  { by rewrite Hcats1, Hcats2, Hdata. }
  assert (totalScore r1 = totalScore r2) as Htotal.
  { by rewrite Htotal1, Htotal2, Hcats. }
  assert (readinessLevel r1 = readinessLevel r2) as Hlevel.
  { by rewrite Hlevel1, Hlevel2, Htotal. }
  clear Hcats1 Hcats2 Htotal1 Htotal2 Hlevel1 Hlevel2 Hdata.
  destruct (audit_blockers repo i1) as (Hc1 & Hp1 & Ht1).
  destruct (audit_blockers repo i2) as (Hc2 & Hp2 & Ht2).
  fold r1 in Hc1, Hp1, Ht1. fold r2 in Hc2, Hp2, Ht2.
  pose proof (audit_summary repo i1) as Hs1.
  pose proof (audit_summary repo i2) as Hs2.
  cbv zeta in Hs1, Hs2. fold r1 in Hs1. fold r2 in Hs2.
  clearbody r1 r2.
  assert (criticalBlockers r1 = criticalBlockers r2) as Hcrit.
  { by rewrite Hc1, Hc2, Hcats, Hpii, Hpay. }
  split_and!; try done.
  - by rewrite Hp1, Hp2, Hcats.
  - by rewrite Ht1, Ht2, Hcats.
  - by rewrite Hs1, Hs2, Hcats, Htotal, Hcrit.
  - unfold exitCode. by rewrite Hcrit.
  - rewrite Hrc. destruct (deploymentUrl i1) as [url|]; [|by left].
    case_decide; [right; by exists url | by left].
Qed.

Lemma parseFlag_fields arg i :
  repoPath (parseFlag arg i) = repoPath i
  ∧ deploymentUrl (parseFlag arg i) = deploymentUrl i
  ∧ intendedAudience (parseFlag arg i) = intendedAudience i
  ∧ handlesPII (parseFlag arg i)
    = handlesPII i || bool_decide (arg = "--handles-pii")
  ∧ handlesPayments (parseFlag arg i)
    = handlesPayments i || bool_decide (arg = "--handles-payments")
  ∧ handlesSecrets (parseFlag arg i)
    = handlesSecrets i || bool_decide (arg = "--handles-secrets").
Proof.
  unfold parseFlag.
  destruct (decide (arg = "--handles-pii")) as [->|?];
    [|destruct (decide (arg = "--handles-payments")) as [->|?];
      [|destruct (decide (arg = "--handles-secrets")) as [->|?]]];
    simpl; rewrite ?bool_decide_eq_true_2, ?bool_decide_eq_false_2 by done;
    rewrite ?orb_true_r, ?orb_false_r; done.
Qed.

(** What the loop of [main] can do to the inputs, by the arguments. *)
Lemma parseArgs_inv n : ∀ args i,
  length args ≤ n →
  let o := parseArgs i args in
  (handlesSecrets i = true → handlesSecrets o = true)
  ∧ (handlesPII o = true → handlesPII i = true ∨ "--handles-pii" ∈ args)
  ∧ (handlesPayments o = true →
     handlesPayments i = true ∨ "--handles-payments" ∈ args)
  ∧ (repoPath o ≠ repoPath i → "--repo-path" ∈ args)
  ∧ (deploymentUrl o ≠ deploymentUrl i → "--deployment-url" ∈ args)
  ∧ (intendedAudience o ≠ intendedAudience i → "--audience" ∈ args).
Proof.
  induction n as [|n IH]; intros args i Hlen.
  { destruct args; [|simpl in Hlen; lia]. simpl. naive_solver. }
  destruct args as [|arg rest]; [simpl; naive_solver|].
  assert (∀ i', let o := parseArgs (parseFlag arg i') rest in
    (handlesSecrets i' = true → handlesSecrets o = true)
    ∧ (handlesPII o = true → handlesPII i' = true ∨ "--handles-pii" ∈ arg :: rest)
    ∧ (handlesPayments o = true →
       handlesPayments i' = true ∨ "--handles-payments" ∈ arg :: rest)
    ∧ (repoPath o ≠ repoPath i' → "--repo-path" ∈ arg :: rest)
    ∧ (deploymentUrl o ≠ deploymentUrl i' → "--deployment-url" ∈ arg :: rest)
    ∧ (intendedAudience o ≠ intendedAudience i' → "--audience" ∈ arg :: rest))
    as Hflag.
  { intros i'. simpl in Hlen.
    destruct (IH rest (parseFlag arg i') ltac:(lia))
      as (Hs & Hp & Hy & Hr & Hd & Ha).
    destruct (parseFlag_fields arg i') as (Er & Ed & Ea & Ep & Ey & Es).
    rewrite Er in Hr. rewrite Ed in Hd. rewrite Ea in Ha.
    rewrite Ep in Hp. rewrite Ey in Hy. rewrite Es in Hs.
    cbv zeta. rewrite !elem_of_cons. split_and!.
    - intros H. apply Hs. by rewrite H.
    - intros H. destruct (Hp H) as [[?|?%bool_decide_eq_true]%orb_true_iff|?];
        naive_solver.
    - intros H. destruct (Hy H) as [[?|?%bool_decide_eq_true]%orb_true_iff|?];
        naive_solver.
    - naive_solver.
    - naive_solver.
    - naive_solver. }
  destruct rest as [|value rest']; [apply Hflag|].
  cbn [parseArgs]. simpl in Hlen.
  destruct (decide (arg = "--repo-path" ∧ truthy value)) as [[-> _]|_];
    [|destruct (decide (arg = "--deployment-url" ∧ truthy value)) as [[-> _]|_];
      [|destruct (decide (arg = "--audience" ∧ truthy value)) as [[-> _]|_];
        [|apply Hflag]]];
    match goal with
    | |- context [parseArgs ?i' rest'] =>
        destruct (IH rest' i' ltac:(lia)) as (Hs & Hp & Hy & Hr & Hd & Ha)
    end;
    cbv zeta; cbn [repoPath deploymentUrl intendedAudience handlesPII
                   handlesPayments handlesSecrets] in *;
    rewrite !elem_of_cons; clear IH Hflag;
    (split_and!;
     [done
     |intros H; destruct (Hp H); [by left | right; right; by right]
     |intros H; destruct (Hy H); [by left | right; right; by right]
     |first [intros _; by left | intros H; right; right; by apply Hr]
     |first [intros _; by left | intros H; right; right; by apply Hd]
     |first [intros _; by left | intros H; right; right; by apply Ha]]).
Qed.

(** X17.  The arguments can only switch on what they name: after
    parsing, [handlesPII] (or [handlesPayments]) is set only if
    [--handles-pii] (or [--handles-payments]) is among the arguments,
    and the repository path, the deployment URL and the audience differ
    from their defaults only if their option is.  [handlesSecrets] is
    set whatever the arguments are. *)
Theorem parseArgs_sound cwd args :
  let o := parseArgs (defaultInputs cwd) args in
  handlesSecrets o = true
  ∧ (handlesPII o = true → "--handles-pii" ∈ args)
  ∧ (handlesPayments o = true → "--handles-payments" ∈ args)
  ∧ (repoPath o ≠ cwd → "--repo-path" ∈ args)
  ∧ (deploymentUrl o ≠ None → "--deployment-url" ∈ args)
  ∧ (intendedAudience o ≠ "Both" → "--audience" ∈ args).
Proof.
  destruct (parseArgs_inv (length args) args (defaultInputs cwd) ltac:(done))
    as (Hs & Hp & Hy & Hr & Hd & Ha).
  simpl in *. naive_solver.
Qed.

Lemma parseArgs_flag arg rest i :
  arg ≠ "--repo-path" → arg ≠ "--deployment-url" → arg ≠ "--audience" →
  parseArgs i (arg :: rest) = parseArgs (parseFlag arg i) rest.
Proof.
  intros Hr Hd Ha. destruct rest as [|value rest']; [done|].
  change (parseArgs i (arg :: value :: rest'))
    with (if decide (arg = "--repo-path" ∧ truthy value) then
            parseArgs
              (mkInputs value (deploymentUrl i) (intendedAudience i)
                 (handlesPII i) (handlesPayments i) (handlesSecrets i)) rest'
          else if decide (arg = "--deployment-url" ∧ truthy value) then
            parseArgs
              (mkInputs (repoPath i) (Some value) (intendedAudience i)
                 (handlesPII i) (handlesPayments i) (handlesSecrets i)) rest'
          else if decide (arg = "--audience" ∧ truthy value) then
            parseArgs
              (mkInputs (repoPath i) (deploymentUrl i) value
                 (handlesPII i) (handlesPayments i) (handlesSecrets i)) rest'
          else parseArgs (parseFlag arg i) (value :: rest')).
  rewrite !decide_False; [done | by intros [? _]..].
Qed.

Lemma parseArgs_flags_only args : ∀ i,
  Forall (λ a, a ≠ "--repo-path" ∧ a ≠ "--deployment-url" ∧ a ≠ "--audience")
    args →
  parseArgs i args = foldl (λ i a, parseFlag a i) i args.
Proof.
  induction args as [|arg rest IH]; intros i Hargs; [done|].
  apply Forall_cons in Hargs as [(Hr & Hd & Ha) Hrest].
  rewrite parseArgs_flag by done. simpl. by apply IH.
Qed.

(** X18.  When none of the arguments is [--repo-path],
    [--deployment-url] or [--audience], every argument is read as a
    flag: [handlesPII] and [handlesPayments] are set exactly when their
    flag is among the arguments, and the path, the URL and the audience
    keep their defaults. *)
Theorem parseArgs_flags cwd args :
  Forall (λ a, a ≠ "--repo-path" ∧ a ≠ "--deployment-url" ∧ a ≠ "--audience")
    args →
  let o := parseArgs (defaultInputs cwd) args in
  repoPath o = cwd
  ∧ deploymentUrl o = None
  ∧ intendedAudience o = "Both"
  ∧ (handlesPII o = true ↔ "--handles-pii" ∈ args)
  ∧ (handlesPayments o = true ↔ "--handles-payments" ∈ args).
Proof.
  intros Hargs o. unfold o. rewrite parseArgs_flags_only by done. clear.
  assert (∀ i,
    let o := foldl (λ i a, parseFlag a i) i args in
    repoPath o = repoPath i ∧ deploymentUrl o = deploymentUrl i
    ∧ intendedAudience o = intendedAudience i
    ∧ (handlesPII o = true ↔ handlesPII i = true ∨ "--handles-pii" ∈ args)
    ∧ (handlesPayments o = true ↔
       handlesPayments i = true ∨ "--handles-payments" ∈ args)) as Hfold.
  { induction args as [|a rest IH]; intros i.
    - simpl. rewrite !elem_of_nil. naive_solver.
    - simpl. destruct (IH (parseFlag a i)) as (-> & -> & -> & -> & ->).
      destruct (parseFlag_fields a i) as (-> & -> & -> & -> & -> & _).
      rewrite !orb_true_iff, !bool_decide_eq_true, !elem_of_cons.
      naive_solver. }
  destruct (Hfold (defaultInputs cwd)) as (-> & -> & -> & -> & ->).
  simpl. naive_solver.
Qed.
End AuditInputs.

(** ** Worked runs of the additional properties *)

Lemma first_seed_wins_witness :
  seeds login_chat !! 0 = Some (mkSeed (Some "1") "Fix login bug")
  ∧ ∃ t, cluster uuidA fresh login_chat !! 0 = Some t ∧ Some "2" ∈ ids t.
Proof.
  split; [reflexivity|].
  apply (first_seed_wins uuidA fresh login_chat 0
           (mkSeed (Some "1") "Fix login bug") (Some "2") eq_refl).
  split.
  - vm_compute. do 2 right. by left.
  - intros j s' Hlt. lia.
Defined.

Lemma undefined_only_from_seeds_witness :
  Forall (λ s, seed_id s ≠ None) (seeds login_chat)
  ∧ Forall (λ t, None ∉ ids t) (cluster uuidA fresh login_chat).
Proof.
  assert (Forall (λ s, seed_id s ≠ None) (seeds login_chat)) as Hs.
  { change (seeds login_chat)
      with [mkSeed (Some "1") "Fix login bug";
            mkSeed (Some "3") "Fix login bug again"].
    repeat (apply Forall_cons; split; [discriminate|]). apply Forall_nil_2. }
  split; [exact Hs|].
  exact (undefined_only_from_seeds uuidA fresh login_chat Hs).
Defined.

Lemma coverage_bound_identified_witness :
  Forall has_id (relevant login_chat)
  ∧ total_ids (cluster uuidA fresh login_chat) ≤ length (relevant login_chat).
Proof.
  assert (Forall has_id (relevant login_chat)) as Hid.
  { change (relevant login_chat) with login_chat.
    repeat (apply Forall_cons; split;
            [eexists; split; [reflexivity | discriminate]|]).
    apply Forall_nil_2. }
  split; [exact Hid|].
  exact (coverage_bound_identified (index := Sample.index) uuidA MemStore.keys
           fresh login_chat eq_refl Hid).
Defined.

Lemma message_in_one_flow_witness :
  mkMessage (Some "2") "assistant" (Some "Here's a fix") None
    ∈ pick_messages [Some "1"; Some "3"; Some "2"] login_chat
  ∧ mkMessage (Some "2") "assistant" (Some "Here's a fix") None
      ∉ pick_messages [] login_chat.
Proof.
  assert (mkMessage (Some "2") "assistant" (Some "Here's a fix") None
            ∈ pick_messages [Some "1"; Some "3"; Some "2"] login_chat) as Hin.
  { vm_compute. right. by left. }
  split; [exact Hin|].
  exact (message_in_one_flow uuidA fresh login_chat 0 1
           (mkTopic "Fix login bug" [Some "1"; Some "3"; Some "2"])
           (mkTopic "Fix login bug again" []) _
           ltac:(discriminate) eq_refl eq_refl Hin).
Defined.

(** The audit of a repository where every search succeeds, and of one
    where nothing is found but a hardcoded secret. *)
Example audit_runs :
  let ready := Audit.audit AuditSample.ready_repo AuditSample.plain_inputs in
  let bare := Audit.audit AuditSample.bare_repo AuditSample.plain_inputs in
  Audit.totalScore ready = 50
  ∧ Audit.readinessLevel ready = "Public Beta Ready"
  ∧ Audit.exitCode ready = 0
  ∧ Audit.totalScore bare = 3
  ∧ Audit.readinessLevel bare = "Prototype"
  ∧ Audit.criticalBlockers bare
    = ["✗ CRITICAL: Potential hardcoded credentials detected"]
  ∧ Audit.exitCode bare = 1.
Proof. vm_compute. by split_and!. Qed.

Lemma audit_verdicts_witness :
  Audit.safeForCustomers
    (Audit.executiveSummary
       (Audit.audit AuditSample.ready_repo AuditSample.plain_inputs)) = true
  ∧ Audit.safeForEmployees
      (Audit.executiveSummary
         (Audit.audit AuditSample.ready_repo AuditSample.plain_inputs)) = true.
Proof.
  assert (Audit.safeForCustomers
    (Audit.executiveSummary
       (Audit.audit AuditSample.ready_repo AuditSample.plain_inputs)) = true)
    as Hsafe by (vm_compute; reflexivity).
  split; [exact Hsafe|].
  exact (proj1 (proj1 (audit_verdicts AuditSample.ready_repo
                         AuditSample.plain_inputs) Hsafe)).
Defined.

Lemma beta_ready_blockers_witness :
  Audit.readinessLevel
    (Audit.audit AuditSample.ready_repo AuditSample.plain_inputs)
  = "Public Beta Ready"
  ∧ length (Audit.publicLaunchBlockers
              (Audit.audit AuditSample.ready_repo AuditSample.plain_inputs)) ≤ 2.
Proof.
  assert (Audit.readinessLevel
    (Audit.audit AuditSample.ready_repo AuditSample.plain_inputs)
    = "Public Beta Ready") as Hlevel by (vm_compute; reflexivity).
  split; [exact Hlevel|].
  exact (proj2 (beta_ready_blockers AuditSample.ready_repo
                  AuditSample.plain_inputs Hlevel)).
Defined.

Lemma audit_reads_two_flags_witness :
  Audit.executiveSummary
    (Audit.audit AuditSample.bare_repo AuditSample.plain_inputs)
  = Audit.executiveSummary
      (Audit.audit AuditSample.bare_repo AuditSample.other_inputs).
Proof.
  destruct (audit_reads_two_flags AuditSample.bare_repo
              AuditSample.plain_inputs AuditSample.other_inputs
              eq_refl eq_refl) as (_ & _ & _ & _ & _ & _ & Hsum & _).
  exact Hsum.
Defined.

Lemma parseArgs_flags_witness :
  Audit.handlesPII
    (Audit.parseArgs (Audit.defaultInputs "/repo") ["--handles-pii"; "--verbose"])
  = true.
Proof.
  assert (Forall (λ a, a ≠ "--repo-path" ∧ a ≠ "--deployment-url"
                       ∧ a ≠ "--audience") ["--handles-pii"; "--verbose"])
    as Hargs.
  { repeat (apply Forall_cons; split; [by split_and!|]). apply Forall_nil_2. }
  destruct (parseArgs_flags "/repo" _ Hargs) as (_ & _ & _ & Hp & _).
  apply Hp. by left.
Defined.

(** An option that takes a value swallows the argument after it, also
    when that argument is a flag; at the end of the arguments, or before
    an empty argument, it is skipped. *)
Example parseArgs_values :
  Audit.parseArgs (Audit.defaultInputs "/repo")
    ["--repo-path"; "--handles-pii"; "--handles-payments"]
  = Audit.mkInputs "--handles-pii" None "Both" false true true
  ∧ Audit.parseArgs (Audit.defaultInputs "/repo") ["--handles-pii"; "--repo-path"]
    = Audit.mkInputs "/repo" None "Both" true false true
  ∧ Audit.parseArgs (Audit.defaultInputs "/repo")
      ["--deployment-url"; EmptyString; "--audience"; "Public"]
    = Audit.mkInputs "/repo" None "Public" false false true.
Proof. by split_and!. Qed.

Section ClusterKeys.
Context {Vec Score Store : Type}.
Context {embedder : Embedder Vec} {index : VectorIndex Vec Score Store}.

Lemma ingest_fold_keys uuid stored `{!VectorIndexLaws _ stored}
    (l : list Message) (w : World Store) k :
  k ∈ stored (store (foldl (ingest_msg uuid) w l)) →
  k ∈ stored (store w)
  ∨ (∃ m, m ∈ l ∧ usable_id (msg_id m) = Some k)
  ∨ (∃ n, drawn w ≤ n < drawn w + length (filter needs_uuid l) ∧ k = uuid n).
Proof.
  revert w. induction l as [|m l IH]; intros w Hk; [by left|].
  simpl in Hk. apply IH in Hk as [Hk|[(m' & Hm' & Hk)|(n & Hn & Hk)]].
  - unfold ingest_msg in Hk.
    destruct (usable_id (msg_id m)) as [k0|] eqn:Hid; simpl in Hk;
      apply upsert_stored in Hk as [->|Hk]; try by left.
    + right; left. exists m. split; [by left | done].
    + right; right. exists (drawn w).
      rewrite filter_cons_True by done. simpl. split; [lia | done].
  - right; left. exists m'. split; [by right | done].
  - right; right. exists n. split; [|done].
    unfold ingest_msg in Hn.
    destruct (usable_id (msg_id m)) as [k0|] eqn:Hid; simpl in Hn.
    + rewrite filter_cons_False; [lia|]. unfold needs_uuid. by rewrite Hid.
    + rewrite filter_cons_True by done. simpl. lia.
Qed.

(** X19.  A run writes to the store only under the non-empty id of a
    non-tool message or under a UUID drawn during the run: every id the
    store holds afterwards was there before, or is one of these.  The
    store may be any in which [upsert] adds no id but the one it is
    given. *)
Theorem cluster_writes uuid stored `{!VectorIndexLaws _ stored}
    (w : World Store) messages k :
  k ∈ stored (store (cluster_run uuid w messages).2) →
  k ∈ stored (store w)
  ∨ (∃ m, m ∈ messages ∧ msg_role m ≠ "tool" ∧ msg_id m = Some k
          ∧ k ≠ EmptyString)
  ∨ (∃ n, drawn w ≤ n < drawn (cluster_run uuid w messages).2 ∧ k = uuid n).
Proof.
  intros Hk. unfold cluster_run, ingest in *. simpl in *.
  apply (ingest_fold_keys uuid stored) in Hk
    as [Hk|[(m & Hm & Hk)|(n & Hn & Hk)]].
  - by left.
  - right; left. exists m.
    apply list_elem_of_filter in Hm as [Hrole Hm].
    unfold usable_id in Hk. destruct (msg_id m) as [k0|]; [|done].
    case_decide; [|done]. injection Hk as ->. done.
  - right; right. exists n. by rewrite ingest_fold_drawn.
Qed.
End ClusterKeys.

Lemma cluster_writes_witness :
  "2" ∈ MemStore.keys (store (cluster_run uuidA fresh login_chat).2)
  ∧ ∃ m, m ∈ login_chat ∧ msg_id m = Some "2".
Proof.
  assert ("2" ∈ MemStore.keys (store (cluster_run uuidA fresh login_chat).2))
    as Hk by (vm_compute; right; by left).
  split; [exact Hk|].
  destruct (cluster_writes (index := Sample.index) uuidA MemStore.keys
              fresh login_chat "2" Hk)
    as [Hold|[(m & Hm & _ & Hid & _)|(n & Hn & Hu)]].
  - vm_compute in Hold. by apply elem_of_nil in Hold.
  - by exists m.
  - vm_compute in Hn. lia.
Defined.
